(** * go-duckdb value marshaling: types.go

    A shallow embedding of the conversion functions of [types.go]
    (HUGEINT <-> math/big.Int, UUID <-> HUGEINT, UUID.Scan,
    Decimal.String, Interval, Composite.Scan) together with the
    properties stated about them.

    Conventions.
    - A [*big.Int] is a [Z].
    - [C.int64_t] / [C.uint64_t] are [Z] restricted to their ranges; every
      Go conversion between them is written out with its wrap-around.
    - [[]byte] is [list byte]; a Go [string] is a [string]. *)

From Stdlib Require Import ZArith List Lia Bool String Ascii.
From Stdlib.Strings Require Import Byte.
From Stdlib Require Import DecimalString.
From Stdlib Require DecimalPos.
Import ListNotations.

Local Open Scope Z_scope.

(** ** Fallible results: Go's [(T, error)] pairs *)

Inductive result (A E : Type) : Type :=
| Ok (a : A)
| Err (e : E).
Arguments Ok {A E} a.
Arguments Err {A E} e.

(** ** Fixed-width words *)

Module Word.

Definition in_uint64 (x : Z) : Prop := 0 <= x < 2 ^ 64.
Definition in_int64 (x : Z) : Prop := - 2 ^ 63 <= x < 2 ^ 63.

(** [uint64(x)]: keep the low 64 bits. *)
Definition to_uint64 (x : Z) : Z := x mod 2 ^ 64.

(** [int64(x)]: keep the low 64 bits, read as two's complement. *)
Definition to_int64 (x : Z) : Z :=
  let u := x mod 2 ^ 64 in
  if u <? 2 ^ 63 then u else u - 2 ^ 64.

Definition in_int128 (x : Z) : Prop := - 2 ^ 127 <= x <= 2 ^ 127 - 1.

(** A 128-bit pattern read as a two's-complement number. *)
Definition to_int128 (x : Z) : Z :=
  let u := x mod 2 ^ 128 in
  if u <? 2 ^ 127 then u else u - 2 ^ 128.

End Word.

(** ** math/big.Int, the operations [types.go] calls *)

Module BigInt.

Definition NewInt (x : Z) : Z := x.
Definition SetUint64 (x : Z) : Z := x.

(** [z.Lsh(x, n)]: [x << n], on the magnitude, keeping the sign. *)
Definition Lsh (x : Z) (n : Z) : Z := Z.shiftl x n.

Definition Add (x y : Z) : Z := x + y.
Definition Sub (x y : Z) : Z := x - y.

(** [z.QuoRem(x, y, r)]: T-division, truncated towards zero. *)
Definition QuoRem (x y : Z) : Z * Z := (Z.quot x y, Z.rem x y).

(** [z.DivMod(x, y, m)]: Euclidean division, obtained from [QuoRem]
    by fixing up a negative remainder. *)
Definition DivMod (x y : Z) : Z * Z :=
  let '(q, m) := QuoRem x y in
  if m <? 0 then
    if y <? 0 then (Add q 1, Sub m y) else (Sub q 1, Add m y)
  else (q, m).

Definition Sign (x : Z) : Z := Z.sgn x.

(** [x.IsInt64()] *)
Definition IsInt64 (x : Z) : bool :=
  (- 2 ^ 63 <=? x) && (x <=? 2 ^ 63 - 1).

(** [x.Uint64()]: the low 64 bits of the magnitude. *)
Definition Uint64 (x : Z) : Z := Z.abs x mod 2 ^ 64.

(** [x.Int64()]: the low 64 bits of the magnitude as an [int64],
    negated (with wrap-around) when [x] is negative. *)
Definition Int64 (x : Z) : Z :=
  let v := Word.to_int64 (Z.abs x mod 2 ^ 64) in
  if x <? 0 then Word.to_int64 (- v) else v.

(** [x.String()]: decimal text, with a leading minus sign when
    negative. *)
Definition String (x : Z) : string :=
  NilZero.string_of_int (Z.to_int x).

End BigInt.

(** ** duckdb_hugeint *)

(** [duckdb_hugeint] is composed of (lower, upper) components; the value
    is [upper * 2^64 + lower]. *)
Record duckdb_hugeint : Type := mk_hugeint {
  lower : Z;  (* uint64_t *)
  upper : Z   (* int64_t *)
}.

Definition hugeint_wf (hi : duckdb_hugeint) : Prop :=
  Word.in_uint64 (lower hi) /\ Word.in_int64 (upper hi).

Inductive hugeint_error : Type :=
| TooBigForHugeint (i : string).

Definition hugeIntToNative (hi : duckdb_hugeint) : Z :=
  let i := BigInt.NewInt (Word.to_int64 (upper hi)) in
  let i := BigInt.Lsh i 64 in
  let i := BigInt.Add i (BigInt.SetUint64 (Word.to_uint64 (lower hi))) in
  i.

Definition hugeIntFromNative (i : Z) : result duckdb_hugeint hugeint_error :=
  let d := BigInt.NewInt 1 in
  let d := BigInt.Lsh d 64 in
  let '(q, r) := BigInt.DivMod i d in
  if negb (BigInt.IsInt64 q) then
    Err (TooBigForHugeint (BigInt.String i))
  else
    Ok {| lower := Word.to_uint64 (BigInt.Uint64 r);
          upper := Word.to_int64 (BigInt.Int64 q) |}.

(** ** Bytes *)

Definition byte_to_Z (b : byte) : Z := Z.of_N (Byte.to_N b).

(** [byte(x)]: keep the low 8 bits. *)
Definition Z_to_byte (x : Z) : byte :=
  match Byte.of_N (Z.to_N (x mod 256)) with
  | Some b => b
  | None => x00
  end.

(** [copy(dst, src)]: overwrite the first [min (len dst) (len src)]
    elements of [dst]. *)
Definition copy (dst src : list byte) : list byte :=
  firstn (List.length dst) src ++ skipn (List.length src) dst.

(** [bytes.Compare(a, b) < 0]: lexicographic order on byte sequences. *)
Fixpoint bytes_lt (a b : list byte) : bool :=
  match a, b with
  | _, [] => false
  | [], _ :: _ => true
  | x :: a', y :: b' =>
      (byte_to_Z x <? byte_to_Z y)
      || ((byte_to_Z x =? byte_to_Z y) && bytes_lt a' b')
  end.

(** The number a byte sequence spells, most significant byte first. *)
Fixpoint be_value (l : list byte) : Z :=
  match l with
  | [] => 0
  | b :: l' => byte_to_Z b * 256 ^ Z.of_nat (List.length l') + be_value l'
  end.

(** ** encoding/binary.BigEndian *)

Module BigEndian.

Definition idx (b : list byte) (i : nat) : Z := byte_to_Z (nth i b x00).

Definition Uint64 (b : list byte) : Z :=
  Z.lor (Z.lor (Z.lor (Z.lor (Z.lor (Z.lor (Z.lor
    (idx b 7)
    (Z.shiftl (idx b 6) 8))
    (Z.shiftl (idx b 5) 16))
    (Z.shiftl (idx b 4) 24))
    (Z.shiftl (idx b 3) 32))
    (Z.shiftl (idx b 2) 40))
    (Z.shiftl (idx b 1) 48))
    (Z.shiftl (idx b 0) 56).

(** [PutUint64(b, v)] overwrites [b[0..7]]; the rest of [b] stays. *)
Definition PutUint64 (b : list byte) (v : Z) : list byte :=
  [ Z_to_byte (Z.shiftr v 56); Z_to_byte (Z.shiftr v 48);
    Z_to_byte (Z.shiftr v 40); Z_to_byte (Z.shiftr v 32);
    Z_to_byte (Z.shiftr v 24); Z_to_byte (Z.shiftr v 16);
    Z_to_byte (Z.shiftr v 8);  Z_to_byte v ] ++ skipn 8 b.

End BigEndian.

(** ** UUID *)

Definition uuid_length : nat := 16.

(** [type UUID [uuid_length]byte] *)
Definition UUID : Type := list byte.

Definition UUID_wf (u : UUID) : Prop := List.length u = uuid_length.

Definition hugeIntToUUID (hi : duckdb_hugeint) : list byte :=
  let uuid := repeat x00 uuid_length in
  (* We need to flip the sign bit of the signed hugeint to transform it
     to UUID bytes *)
  let uuid :=
    BigEndian.PutUint64 (firstn 8 uuid)
      (Z.lxor (Word.to_uint64 (upper hi)) (Z.shiftl 1 63))
    ++ skipn 8 uuid in
  let uuid :=
    firstn 8 uuid
    ++ BigEndian.PutUint64 (skipn 8 uuid) (Word.to_uint64 (lower hi)) in
  uuid.

Definition uuidToHugeInt (uuid : UUID) : duckdb_hugeint :=
  let upper := BigEndian.Uint64 (firstn 8 uuid) in
  (* flip the sign bit *)
  let upper := Z.lxor upper (Z.shiftl 1 63) in
  {| upper := Word.to_int64 upper;
     lower := Word.to_uint64 (BigEndian.Uint64 (skipn 8 uuid)) |}.

(** *** UUID.Scan *)

(** The dynamic values [Scan] can be handed: the two types its switch
    names, and every other type (kept by its [%T] name). *)
Inductive any : Type :=
| AnyBytes (val : list byte)
| AnyString (val : string)
| AnyOther (type_name : string).

Inductive scan_error (E : Type) : Type :=
| ParseError (e : E)
| InvalidValueType (type_name : string).
Arguments ParseError {E} e.
Arguments InvalidValueType {E} type_name.

Section UUIDScan.

(** [uuid.Parse] of github.com/google/uuid, with its error type. *)
Variable E : Type.
Variable Parse : string -> result (list byte) E.

(** The [case string] arm of [Scan]. *)
Definition Scan_string (u : UUID) (val : string)
  : UUID * option (scan_error E) :=
  match Parse val with
  | Err err => (u, Some (ParseError err))
  | Ok id => (copy u id, None)
  end.

(** [func (u *UUID) Scan(v any) error]: the receiver after the call and
    the returned error.  The recursive call [u.Scan(string(val))]
    always enters the [case string] arm. *)
Definition Scan (u : UUID) (v : any) : UUID * option (scan_error E) :=
  match v with
  | AnyBytes val =>
      if negb (Nat.eqb (List.length val) uuid_length) then
        Scan_string u (string_of_list_byte val)
      else (copy u val, None)
  | AnyString val => Scan_string u val
  | AnyOther t => (u, Some (InvalidValueType t))
  end.

End UUIDScan.

(** ** Package strings, the functions [Decimal.String] calls *)

Module Strings.

Local Open Scope string_scope.
Local Open Scope Z_scope.

(** [len(s)] *)
Definition len (s : string) : Z := Z.of_nat (String.length s).

(** [s[lo:hi]] *)
Definition slice (s : string) (lo hi : Z) : string :=
  substring (Z.to_nat lo) (Z.to_nat (hi - lo)) s.

(** [strings.Repeat(s, count)] for [count >= 0]. *)
Fixpoint Repeat_nat (s : string) (count : nat) : string :=
  match count with
  | O => ""
  | S n => s ++ Repeat_nat s n
  end.

Definition Repeat (s : string) (count : Z) : string :=
  Repeat_nat s (Z.to_nat count).

(** [lastIndexFunc(s, f, truth)]: scan from the end for the last
    character [r] with [f r == truth]; [-1] when there is none. *)
Fixpoint lastIndexFunc_loop (s : string) (f : ascii -> bool)
    (truth : bool) (i : nat) : Z :=
  match i with
  | O => -1
  | S i' =>
      match get i' s with
      | Some r =>
          if Bool.eqb (f r) truth then Z.of_nat i'
          else lastIndexFunc_loop s f truth i'
      | None => -1
      end
  end.

Definition lastIndexFunc (s : string) (f : ascii -> bool) (truth : bool)
  : Z :=
  lastIndexFunc_loop s f truth (String.length s).

(** [strings.TrimRightFunc(s, f)] on single-byte characters. *)
Definition TrimRightFunc (s : string) (f : ascii -> bool) : string :=
  let i := lastIndexFunc s f false in
  let i := i + 1 in
  slice s 0 i.

End Strings.

(** ** Decimal *)

Definition max_decimal_width : Z := 38.

Record Decimal : Type := mk_Decimal {
  Width : Z;  (* uint8 *)
  Scale : Z;  (* uint8 *)
  Value : Z   (* *big.Int *)
}.

Section DecimalString.

Local Open Scope string_scope.
Local Open Scope Z_scope.

Definition Decimal_String (d : Decimal) : string :=
  (* Get the sign, and return early if zero *)
  if BigInt.Sign (Value d) =? 0 then "0" else
  (* Remove the sign from the string integer value *)
  let scaleless := BigInt.String (Value d) in
  let '(signStr, scaleless) :=
    if BigInt.Sign (Value d) <? 0
    then ("-", Strings.slice scaleless 1 (Strings.len scaleless))
    else ("", scaleless) in
  (* Remove all zeros from the right side *)
  let zeroTrimmed :=
    Strings.TrimRightFunc scaleless (fun r => Ascii.eqb r "0") in
  let scale :=
    Scale d - (Strings.len scaleless - Strings.len zeroTrimmed) in
  (* If the string is still bigger than the scale factor, output it
     without a decimal point *)
  if scale <=? 0 then
    signStr ++ zeroTrimmed ++ Strings.Repeat "0" (-1 * scale)
  (* Pad a number with 0.0's if needed *)
  else if Strings.len zeroTrimmed <=? scale then
    signStr ++ "0."
      ++ Strings.Repeat "0" (scale - Strings.len zeroTrimmed)
      ++ zeroTrimmed
  else
    signStr
      ++ Strings.slice zeroTrimmed 0 (Strings.len zeroTrimmed - scale)
      ++ "."
      ++ Strings.slice zeroTrimmed (Strings.len zeroTrimmed - scale)
           (Strings.len zeroTrimmed).

End DecimalString.

(** *** The formatting rules of [toString], step by step

    A second rendering of the decimal text that follows the numbered
    rules of the specification on lists of digits; [Decimal_String] is
    compared with it below. *)

Module ToStringRules.

Definition is_zero_digit (c : ascii) : bool := Ascii.eqb c "0"%char.

Fixpoint take_while (f : ascii -> bool) (l : list ascii) : list ascii :=
  match l with
  | [] => []
  | c :: l' => if f c then c :: take_while f l' else []
  end.

Fixpoint drop_while (f : ascii -> bool) (l : list ascii) : list ascii :=
  match l with
  | [] => []
  | c :: l' => if f c then drop_while f l' else l
  end.

(** rule 2: the sign, recorded separately, and the digits of the
    magnitude *)
Definition sign_of (magnitude : Z) : list ascii :=
  if magnitude <? 0 then ["-"%char] else [].

Definition digits_of (magnitude : Z) : list ascii :=
  list_ascii_of_string (BigInt.String (Z.abs magnitude)).

(** rule 3: the trailing zero digits and what is left without them *)
Definition trailing_zeros (digits : list ascii) : nat :=
  List.length (take_while is_zero_digit (rev digits)).

Definition trim_trailing_zeros (digits : list ascii) : list ascii :=
  rev (drop_while is_zero_digit (rev digits)).

Definition zeros (n : Z) : list ascii := repeat "0"%char (Z.to_nat n).

(** rule 6: a decimal point [k] digits from the right *)
Definition point_from_right (k : nat) (digits : list ascii) : list ascii :=
  rev (skipn k (rev digits)) ++ ["."%char] ++ rev (firstn k (rev digits)).

Definition toString (scale magnitude : Z) : string :=
  string_of_list_ascii
    (if magnitude =? 0 then ["0"%char]
     else
       let sign := sign_of magnitude in
       let digits := digits_of magnitude in
       let trimmed := trim_trailing_zeros digits in
       let reduced := scale - Z.of_nat (trailing_zeros digits) in
       if reduced <=? 0 then
         sign ++ trimmed ++ zeros (- reduced)
       else if Z.of_nat (List.length trimmed) <=? reduced then
         sign ++ ["0"; "."]%char
           ++ zeros (reduced - Z.of_nat (List.length trimmed))
           ++ trimmed
       else
         sign ++ point_from_right (Z.to_nat reduced) trimmed).

End ToStringRules.

(** ** Interval *)

Record Interval : Type := mk_Interval {
  Days : Z;    (* int32 *)
  Months : Z;  (* int32 *)
  Micros : Z   (* int64 *)
}.

(** Go's [==] on the struct: the fields are compared one by one. *)
Definition Interval_eq (a b : Interval) : bool :=
  (Days a =? Days b) && (Months a =? Months b) && (Micros a =? Micros b).

(** The length of time an interval stands for once a day is taken to be
    24 hours and a month 30 days; the code never computes it. *)
Definition Interval_nominal_micros (a : Interval) : Z :=
  (Months a * 30 + Days a) * 86400000000 + Micros a.

(** ** Composite *)

Module Mapstructure.

Definition lower (c : ascii) : ascii :=
  let n := nat_of_ascii c in
  if (Nat.leb 65 n && Nat.leb n 90)%bool then ascii_of_nat (n + 32) else c.

(** One case-insensitive comparison of names, for names written in
    ASCII letters; the decoder below does not depend on it. *)
Fixpoint EqualFold_ascii (s t : string) : bool :=
  match s, t with
  | EmptyString, EmptyString => true
  | String a s', String b t' =>
      Ascii.eqb (lower a) (lower b) && EqualFold_ascii s' t'
  | _, _ => false
  end.

Inductive decode_error : Type :=
| TypeMismatch (field_name : string).

Section Decode.

(** [T]: declared types of destination fields; [V]: values. *)
Variables T V : Type.
Variable zero_of : T -> V.
Variable coerce : T -> V -> option V.

(** Modelled from the spec: the case-insensitive comparison of names
    that the decoder uses ([strings.EqualFold] in the library, over all
    of Unicode), which is not part of the sources.  It is left open:
    nothing below restricts the alphabet or the folding rule. *)
Variable EqualFold : string -> string -> bool.

Record field : Type := mk_field {
  declared_name : string;
  tag : option string;
  ftype : T
}.

Definition match_name (f : field) : string :=
  match tag f with
  | Some t => t
  | None => declared_name f
  end.

(** A destination record: its fields in declaration order, each with
    its current value. *)
Definition record : Type := list (field * V).

Definition zero_record (shape : list field) : record :=
  map (fun f => (f, zero_of (ftype f))) shape.

(** Modelled from the spec: what the decoder, which is not part of the
    sources, does with one source field [(k, v)]: every destination
    field whose name matches [k] takes the coerced value, or the call
    fails when it cannot be coerced; the other fields are kept. *)
Fixpoint assign (k : string) (v : V) (dst : record)
  : result record decode_error :=
  match dst with
  | [] => Ok []
  | (f, cur) :: rest =>
      if EqualFold (match_name f) k then
        match coerce (ftype f) v with
        | None => Err (TypeMismatch (declared_name f))
        | Some v' =>
            match assign k v rest with
            | Err e => Err e
            | Ok rest' => Ok ((f, v') :: rest')
            end
        end
      else
        match assign k v rest with
        | Err e => Err e
        | Ok rest' => Ok ((f, cur) :: rest')
        end
  end.

(** Modelled from the spec: [mapstructure.Decode] of
    github.com/mitchellh/mapstructure, which [Composite.Scan] calls
    and which is not part of the sources, for a record source and a
    record destination: each source field is matched by name against
    the destination fields, case-insensitively, on the declared name
    or the tag; a matched field whose value cannot be coerced fails;
    unmatched destination fields keep their value; unmatched source
    fields are ignored. *)
Fixpoint Decode (src : list (string * V)) (dst : record)
  : result record decode_error :=
  match src with
  | [] => Ok dst
  | (k, v) :: src' =>
      match assign k v dst with
      | Err e => Err e
      | Ok dst' => Decode src' dst'
      end
  end.

(** What one source field [(k, v)] does to one destination field. *)
Definition assigned (k : string) (v : V) (old new : field * V) : Prop :=
  fst new = fst old
  /\ if EqualFold (match_name (fst old)) k
     then coerce (ftype (fst old)) v = Some (snd new)
     else snd new = snd old.

(** What a whole source record does to one destination field. *)
Definition decoded (src : list (string * V)) (old new : field * V)
  : Prop :=
  fst new = fst old
  /\ ((exists k v, In (k, v) src
                   /\ EqualFold (match_name (fst old)) k = true
                   /\ coerce (ftype (fst old)) v = Some (snd new))
      \/ ((forall k v, In (k, v) src ->
                       EqualFold (match_name (fst old)) k = false)
          /\ snd new = snd old)).

(** [type Composite[T any] struct { t T }] *)
Record Composite : Type := mk_Composite { t : record }.

Definition Get (s : Composite) : record := t s.

(** [func (s *Composite[T]) Scan(v any) error] *)
Definition Composite_Scan (s : Composite) (v : list (string * V))
  : result Composite decode_error :=
  match Decode v (t s) with
  | Err e => Err e
  | Ok d => Ok {| t := d |}
  end.

End Decode.

End Mapstructure.

(** ** Run-time panics and buffers written in place *)

Inductive panic : Type :=
| IndexOutOfRange
| InvalidArgument
| LenOutOfRange.

Definition bind {A B E} (r : result A E) (k : A -> result B E)
  : result B E :=
  match r with
  | Ok a => k a
  | Err e => Err e
  end.

Notation "x <- r ;; k" := (bind r (fun x => k))
  (at level 61, r at next level, right associativity).

(** [buf[i] = b]: panics when [i] is not an index of [buf]. *)
Definition store (buf : list byte) (i : nat) (b : byte)
  : result (list byte) panic :=
  if Nat.ltb i (List.length buf)
  then Ok (firstn i buf ++ b :: skipn (S i) buf)
  else Err IndexOutOfRange.

(** Run [f] on the slice [buf[lo:hi]], which shares its elements with
    [buf]: what [f] writes into the slice is written into [buf].  The
    slice expression panics unless [lo <= hi <= len(buf)]. *)
Definition on_slice (buf : list byte) (lo hi : nat)
    (f : list byte -> result (list byte) panic)
  : result (list byte) panic :=
  if (Nat.leb lo hi && Nat.leb hi (List.length buf))%bool then
    s <- f (firstn (hi - lo) (skipn lo buf)) ;;
    Ok (firstn lo buf ++ s ++ skipn hi buf)
  else Err IndexOutOfRange.

(** ** encoding/hex *)

Module Hex.

Definition hextable : list byte :=
  list_byte_of_string "0123456789abcdef".

(** [hextable[n]] *)
Definition digit (n : Z) : byte := nth (Z.to_nat n) hextable x00.

(** The loop of [hex.Encode(dst, src)], from position [j] of [dst]. *)
Fixpoint Encode_loop (dst src : list byte) (j : nat)
  : result (list byte) panic :=
  match src with
  | [] => Ok dst
  | v :: rest =>
      dst <- store dst j (digit (Z.shiftr (byte_to_Z v) 4)) ;;
      dst <- store dst (j + 1) (digit (Z.land (byte_to_Z v) 15)) ;;
      Encode_loop dst rest (j + 2)
  end.

(** [hex.Encode(dst, src)]: the contents of [dst] after the call. *)
Definition Encode (dst src : list byte) : result (list byte) panic :=
  Encode_loop dst src 0.

End Hex.

(** [func (u *UUID) String() string] *)
Definition UUID_String (u : UUID) : result string panic :=
  let buf := repeat x00 36 in
  buf <- Hex.Encode buf (firstn 4 u) ;;
  buf <- store buf 8 "-"%byte ;;
  buf <- on_slice buf 9 13 (fun s => Hex.Encode s (firstn 2 (skipn 4 u))) ;;
  buf <- store buf 13 "-"%byte ;;
  buf <- on_slice buf 14 18 (fun s => Hex.Encode s (firstn 2 (skipn 6 u))) ;;
  buf <- store buf 18 "-"%byte ;;
  buf <- on_slice buf 19 23 (fun s => Hex.Encode s (firstn 2 (skipn 8 u))) ;;
  buf <- store buf 23 "-"%byte ;;
  buf <- on_slice buf 24 (List.length buf)
           (fun s => Hex.Encode s (skipn 10 u)) ;;
  Ok (string_of_list_byte buf).

(** The two characters [hex.Encode] writes for one byte, and the value
    of a character of [hextable]. *)
Definition hex_pair (b : byte) : list byte :=
  [Hex.digit (Z.shiftr (byte_to_Z b) 4); Hex.digit (Z.land (byte_to_Z b) 15)].

Definition is_hex_char (c : byte) : bool :=
  existsb (Byte.eqb c) Hex.hextable.

Fixpoint index_of (c : byte) (l : list byte) : Z :=
  match l with
  | [] => 0
  | x :: l' => if Byte.eqb c x then 0 else 1 + index_of c l'
  end.

Definition hex_value (c : byte) : Z := index_of c Hex.hextable.

(** ** Reading decimal text

    The number a decimal text stands for, used to state what
    [Decimal.String] prints: an optional minus sign, digits, and
    optionally a point followed by digits. *)

Module DecimalText.

Definition is_digit (c : ascii) : bool :=
  (Nat.leb 48 (nat_of_ascii c) && Nat.leb (nat_of_ascii c) 57)%bool.

Definition digit_value (c : ascii) : Z := Z.of_nat (nat_of_ascii c) - 48.

Definition digits_value (l : list ascii) : Z :=
  fold_left (fun acc c => 10 * acc + digit_value c) l 0.

(** One digit at least, and digits only. *)
Definition all_digits (l : list ascii) : bool :=
  match l with
  | [] => false
  | _ :: _ => forallb is_digit l
  end.

(** The text before the first point and, if there is one, the text
    after it. *)
Fixpoint split_point (l : list ascii) : list ascii * option (list ascii) :=
  match l with
  | [] => ([], None)
  | c :: l' =>
      if Ascii.eqb c "."%char then ([], Some l')
      else let '(i, f) := split_point l' in (c :: i, f)
  end.

Definition strip_sign (l : list ascii) : bool * list ascii :=
  match l with
  | c :: r => if Ascii.eqb c "-"%char then (true, r) else (false, l)
  | [] => (false, [])
  end.

(** Digits, and optionally a point followed by digits: the number
    [m / 10^e] for the result [(m, e)], [e] being the number of fraction
    digits. *)
Definition unsigned_value (body : list ascii) : option (Z * Z) :=
  let '(int, frac) := split_point body in
  let fraction := match frac with Some f => f | None => [] end in
  if (all_digits int
      && match frac with Some f => all_digits f | None => true end)%bool
  then Some (digits_value (int ++ fraction),
             Z.of_nat (List.length fraction))
  else None.

(** [value s = Some (m, e)]: the text [s] is well formed and stands for
    the number [m / 10^e]. *)
Definition value (s : string) : option (Z * Z) :=
  let '(negative, body) := strip_sign (list_ascii_of_string s) in
  match unsigned_value body with
  | Some (m, e) => Some (if negative then - m else m, e)
  | None => None
  end.

End DecimalText.

(** The decimal digits of a positive number, as [big.Int.String] prints
    them. *)
Definition pos_digits (p : positive) : list ascii :=
  list_ascii_of_string (BigInt.String (Z.pos p)).

(** The digits of a non-zero magnitude arranged around the point, as
    the rules of [ToStringRules.toString] arrange them after the sign. *)
Definition arranged (sc : Z) (digits : list ascii) : list ascii :=
  let trimmed := ToStringRules.trim_trailing_zeros digits in
  let reduced := sc - Z.of_nat (ToStringRules.trailing_zeros digits) in
  if reduced <=? 0 then trimmed ++ ToStringRules.zeros (- reduced)
  else if Z.of_nat (List.length trimmed) <=? reduced then
    ["0"; "."]%char
      ++ ToStringRules.zeros (reduced - Z.of_nat (List.length trimmed))
      ++ trimmed
  else ToStringRules.point_from_right (Z.to_nat reduced) trimmed.

(** ** Helpers of the tests (duckdb_test.go) *)

Section TestHelpers.

(** The package-level generator of math/rand: [draws k n] is what the
    [k]-th call returns when it is asked for a number below [n]. *)
Variable draws : nat -> Z -> Z.

(** [rand.Int63n(n)] and [rand.Intn(n)], as the [k]-th call: they panic
    when [n <= 0]. *)
Definition Int63n (k : nat) (n : Z) : result Z panic :=
  if n <=? 0 then Err InvalidArgument else Ok (draws k n).

Definition Intn (k : nat) (n : Z) : result Z panic :=
  if n <=? 0 then Err InvalidArgument else Ok (draws k n).

(** [func randInt(lo int64, hi int64) int64], in [int64] arithmetic. *)
Definition randInt (k : nat) (lo hi : Z) : result Z panic :=
  r <- Int63n k (Word.to_int64 (hi - lo + 1)) ;;
  Ok (Word.to_int64 (r + lo)).

Definition letters : list ascii :=
  list_ascii_of_string
    "abcdefghijklmnopqrstuvwxyzABCDEFGHIJKLMNOPQRSTUVWXYZ0123456789".

(** [letters[j]] *)
Definition letter_at (j : Z) : result ascii panic :=
  if (0 <=? j) && (j <? Z.of_nat (List.length letters)) then
    Ok (nth (Z.to_nat j) letters "000"%char)
  else Err IndexOutOfRange.

(** The loop [for i := range b] of [randString], from index [i] with
    [todo] elements to go, the generator being at its [k]-th call. *)
Fixpoint randString_loop (k : nat) (b : list ascii) (i todo : nat)
  : result (list ascii) panic :=
  match todo with
  | O => Ok b
  | S todo' =>
      j <- Intn k (Z.of_nat (List.length letters)) ;;
      c <- letter_at j ;;
      randString_loop (S k) (firstn i b ++ c :: skipn (S i) b) (S i) todo'
  end.

(** [func randString(n int) string]; [make] panics on a negative
    length. *)
Definition randString (k : nat) (n : Z) : result string panic :=
  if n <? 0 then Err LenOutOfRange else
  let b := repeat "000"%char (Z.to_nat n) in
  b <- randString_loop k b 0 (List.length b) ;;
  Ok (string_of_list_ascii b).

End TestHelpers.

(** *** Arithmetic facts about the word and big.Int operations *)

Lemma two64_val : 2 ^ 64 = 18446744073709551616.
Proof. reflexivity. Qed.

Lemma two63_val : 2 ^ 63 = 9223372036854775808.
Proof. reflexivity. Qed.

Lemma two127_val : 2 ^ 127 = 170141183460469231731687303715884105728.
Proof. reflexivity. Qed.

Lemma two128_val : 2 ^ 128 = 340282366920938463463374607431768211456.
Proof. reflexivity. Qed.

Ltac words :=
  unfold Word.in_uint64, Word.in_int64, Word.in_int128,
    Word.to_uint64, Word.to_int64, Word.to_int128 in *;
  rewrite ?two64_val, ?two63_val, ?two127_val, ?two128_val in *.

Lemma to_uint64_small x : Word.in_uint64 x -> Word.to_uint64 x = x.
Proof. words. intros H. apply Z.mod_small. exact H. Qed.

Lemma to_int64_small x : Word.in_int64 x -> Word.to_int64 x = x.
Proof.
  words. intros H.
  destruct (Z.ltb_spec (x mod 18446744073709551616) 9223372036854775808);
    Z.div_mod_to_equations; lia.
Qed.

Lemma DivMod_pos x y :
  0 < y -> BigInt.DivMod x y = (x / y, x mod y).
Proof.
  intros Hy. unfold BigInt.DivMod, BigInt.QuoRem, BigInt.Add, BigInt.Sub.
  assert (Hqr := Z.quot_rem' x y).
  assert (Hdm := Z.div_mod x y ltac:(lia)).
  assert (Hm := Z.mod_pos_bound x y Hy).
  assert (Hr := Z.rem_bound_abs x y ltac:(lia)).
  destruct (Z.ltb_spec (Z.rem x y) 0) as [Hneg | Hnn].
  - destruct (Z.ltb_spec y 0); [lia|].
    assert (Z.quot x y - 1 = x / y) by nia.
    f_equal; nia.
  - assert (Z.quot x y = x / y) by nia.
    f_equal; nia.
Qed.

Lemma hugeIntToNative_eq hi :
  hugeint_wf hi -> hugeIntToNative hi = upper hi * 2 ^ 64 + lower hi.
Proof.
  intros [Hl Hu]. unfold hugeIntToNative, BigInt.NewInt, BigInt.Lsh,
    BigInt.Add, BigInt.SetUint64.
  rewrite (to_int64_small _ Hu), (to_uint64_small _ Hl).
  rewrite Z.shiftl_mul_pow2 by lia. reflexivity.
Qed.

Lemma hugeIntFromNative_eq i :
  hugeIntFromNative i =
    if negb (BigInt.IsInt64 (i / 2 ^ 64)) then
      Err (TooBigForHugeint (BigInt.String i))
    else Ok {| lower := i mod 2 ^ 64; upper := i / 2 ^ 64 |}.
Proof.
  unfold hugeIntFromNative, BigInt.NewInt, BigInt.Lsh.
  change (Z.shiftl 1 64) with (2 ^ 64).
  rewrite DivMod_pos by (rewrite two64_val; lia).
  destruct (BigInt.IsInt64 (i / 2 ^ 64)) eqn:Hq; cbn [negb]; [|reflexivity].
  unfold BigInt.IsInt64 in Hq.
  apply andb_true_iff in Hq. destruct Hq as [H1 H2].
  apply Z.leb_le in H1. apply Z.leb_le in H2.
  assert (Hm := Z.mod_pos_bound i (2 ^ 64) ltac:(rewrite two64_val; lia)).
  f_equal. f_equal.
  - unfold BigInt.Uint64. rewrite Z.abs_eq by lia.
    rewrite Z.mod_mod by (rewrite two64_val; lia).
    apply to_uint64_small. exact Hm.
  - set (q := i / 2 ^ 64) in *.
    assert (Hq : Word.in_int64 q) by (unfold Word.in_int64; lia).
    clearbody q. clear Hm.
    unfold BigInt.Int64.
    destruct (Z.ltb_spec q 0) as [Hn | Hp].
    + rewrite Z.abs_neq by lia.
      words.
      repeat match goal with
             | |- context [?a <? ?b] => destruct (Z.ltb_spec a b)
             end; Z.div_mod_to_equations; lia.
    + rewrite Z.abs_eq by lia.
      words.
      repeat match goal with
             | |- context [?a <? ?b] => destruct (Z.ltb_spec a b)
             end; Z.div_mod_to_equations; lia.
Qed.

Lemma IsInt64_iff q : BigInt.IsInt64 q = true <-> Word.in_int64 q.
Proof.
  unfold BigInt.IsInt64. rewrite andb_true_iff, !Z.leb_le.
  words. lia.
Qed.

Lemma quotient_in_int64_iff i :
  Word.in_int64 (i / 2 ^ 64) <-> Word.in_int128 i.
Proof. words. split; intros H; Z.div_mod_to_equations; lia. Qed.

Lemma hugeIntFromNative_in_range i :
  Word.in_int128 i ->
  hugeIntFromNative i = Ok {| lower := i mod 2 ^ 64; upper := i / 2 ^ 64 |}.
Proof.
  intros Hi. rewrite hugeIntFromNative_eq.
  apply quotient_in_int64_iff, IsInt64_iff in Hi. rewrite Hi. reflexivity.
Qed.

Lemma hugeIntToNative_range v :
  hugeint_wf v -> Word.in_int128 (hugeIntToNative v).
Proof.
  intros Hv. rewrite (hugeIntToNative_eq _ Hv).
  destruct Hv as [Hl Hu]. words. lia.
Qed.

Lemma hugeint_of_native_of_hugeint v :
  hugeint_wf v -> hugeIntFromNative (hugeIntToNative v) = Ok v.
Proof.
  intros Hv.
  rewrite (hugeIntFromNative_in_range _ (hugeIntToNative_range _ Hv)).
  rewrite (hugeIntToNative_eq _ Hv).
  destruct v as [l u]. destruct Hv as [Hl Hu]. cbn [lower upper] in *.
  words. f_equal. f_equal; Z.div_mod_to_equations; lia.
Qed.

Lemma native_of_hugeint_of_native i :
  Word.in_int128 i ->
  hugeIntToNative {| lower := i mod 2 ^ 64; upper := i / 2 ^ 64 |} = i
  /\ hugeint_wf {| lower := i mod 2 ^ 64; upper := i / 2 ^ 64 |}.
Proof.
  intros Hi.
  assert (Hwf : hugeint_wf {| lower := i mod 2 ^ 64; upper := i / 2 ^ 64 |}).
  { split; cbn [lower upper].
    - apply Z.mod_pos_bound. rewrite two64_val. lia.
    - apply quotient_in_int64_iff. exact Hi. }
  split; [|exact Hwf].
  rewrite (hugeIntToNative_eq _ Hwf). cbn [lower upper].
  rewrite two64_val. Z.div_mod_to_equations. lia.
Qed.

(** *** Claims about HUGEINT *)

(** C1. For every [duckdb_hugeint] [v] (a signed 64-bit upper word and an
    unsigned 64-bit lower word), converting [v] to a big integer with
    [hugeIntToNative] and back with [hugeIntFromNative] succeeds and
    returns [v], both words unchanged. *)
Theorem hugeint_roundtrip (v : duckdb_hugeint) :
  hugeint_wf v ->
  hugeIntFromNative (hugeIntToNative v) = Ok v.
Proof. apply hugeint_of_native_of_hugeint. Qed.

Lemma hugeint_roundtrip_witness :
  hugeint_wf (mk_hugeint (2 ^ 64 - 1) (-1))
  /\ hugeIntFromNative (hugeIntToNative (mk_hugeint (2 ^ 64 - 1) (-1)))
     = Ok (mk_hugeint (2 ^ 64 - 1) (-1)).
Proof.
  assert (H : hugeint_wf (mk_hugeint (2 ^ 64 - 1) (-1))).
  { split; cbv; intuition discriminate. }
  split; [exact H | exact (hugeint_roundtrip _ H)].
Defined.

(** C3. For every big integer [i], [hugeIntFromNative i] divides [i] by
    2^64 with floor-and-remainder semantics: on success the lower word is
    the remainder, in [0, 2^64), and the upper word is the exact floor
    quotient; it returns an error exactly when that quotient does not fit
    a signed 64-bit word, that is, exactly when [i] lies outside
    [-2^127, 2^127 - 1]. *)
Theorem hugeIntFromNative_floor_division (i : Z) :
  match hugeIntFromNative i with
  | Ok hi =>
      0 <= lower hi < 2 ^ 64
      /\ upper hi = i / 2 ^ 64
      /\ lower hi = i mod 2 ^ 64
      /\ i = upper hi * 2 ^ 64 + lower hi
      /\ (upper hi < 0 <-> i < 0)
      /\ - 2 ^ 63 <= upper hi <= 2 ^ 63 - 1
      /\ - 2 ^ 127 <= i <= 2 ^ 127 - 1
  | Err _ =>
      ~ (- 2 ^ 63 <= i / 2 ^ 64 <= 2 ^ 63 - 1)
      /\ ~ (- 2 ^ 127 <= i <= 2 ^ 127 - 1)
  end.
Proof.
  rewrite hugeIntFromNative_eq.
  destruct (BigInt.IsInt64 (i / 2 ^ 64)) eqn:Hq; cbn [negb lower upper].
  - apply IsInt64_iff in Hq.
    assert (Hi := proj1 (quotient_in_int64_iff i) Hq).
    assert (Hm := Z.mod_pos_bound i (2 ^ 64) ltac:(rewrite two64_val; lia)).
    assert (Hd := Z.div_mod i (2 ^ 64) ltac:(rewrite two64_val; lia)).
    words. repeat split; lia.
  - assert (Hn : ~ Word.in_int64 (i / 2 ^ 64)).
    { intros H. apply IsInt64_iff in H. congruence. }
    assert (Hi : ~ Word.in_int128 i).
    { intros H. apply Hn, quotient_in_int64_iff, H. }
    words. split; lia.
Qed.

(** C5. For every [duckdb_hugeint], [hugeIntToNative] returns
    [upper * 2^64 + lower], with [upper] signed and [lower] an unsigned
    contribution; this is the two's-complement reading of the 128 bits
    made of the two words, and (upper = -1, lower = 2^64 - 1) gives -1. *)
Theorem hugeIntToNative_twos_complement (v : duckdb_hugeint) :
  hugeint_wf v ->
  hugeIntToNative v = upper v * 2 ^ 64 + lower v
  /\ hugeIntToNative v
     = Word.to_int128 (Word.to_uint64 (upper v) * 2 ^ 64 + lower v)
  /\ hugeIntToNative (mk_hugeint (2 ^ 64 - 1) (-1)) = -1.
Proof.
  intros Hv. split; [apply hugeIntToNative_eq, Hv|]. split.
  - rewrite (hugeIntToNative_eq _ Hv). destruct Hv as [Hl Hu].
    words.
    match goal with
    | |- context [?a <? ?b] => destruct (Z.ltb_spec a b)
    end; Z.div_mod_to_equations; lia.
  - reflexivity.
Qed.

Lemma hugeIntToNative_twos_complement_witness :
  hugeint_wf (mk_hugeint 2 1)
  /\ hugeIntToNative (mk_hugeint 2 1) = 18446744073709551618.
Proof.
  assert (H : hugeint_wf (mk_hugeint 2 1)).
  { split; cbv; intuition discriminate. }
  split; [exact H|].
  exact (proj1 (hugeIntToNative_twos_complement _ H)).
Defined.

(** C10. [hugeIntToNative] and [hugeIntFromNative] are mutually inverse
    bijections between the [duckdb_hugeint] values and the integers of
    [-2^127, 2^127 - 1]: for [i] in that range [hugeIntFromNative i]
    succeeds with a value that [hugeIntToNative] sends back to [i], every
    [hugeIntToNative v] is in the range, and [hugeIntToNative v = i]
    exactly when [hugeIntFromNative i] is [v]. *)
Theorem hugeint_native_bijection (i : Z) (v : duckdb_hugeint) :
  Word.in_int128 i ->
  hugeint_wf v ->
  (exists w, hugeIntFromNative i = Ok w
             /\ hugeint_wf w /\ hugeIntToNative w = i)
  /\ Word.in_int128 (hugeIntToNative v)
  /\ (hugeIntToNative v = i <-> hugeIntFromNative i = Ok v).
Proof.
  intros Hi Hv.
  destruct (native_of_hugeint_of_native i Hi) as [Hback Hwf].
  split; [|split].
  - eexists. split; [apply hugeIntFromNative_in_range, Hi|].
    split; assumption.
  - apply hugeIntToNative_range, Hv.
  - split.
    + intros <-. apply hugeint_of_native_of_hugeint, Hv.
    + rewrite (hugeIntFromNative_in_range _ Hi). intros H.
      injection H as <- . exact Hback.
Qed.

Lemma hugeint_native_bijection_witness :
  Word.in_int128 (-1)
  /\ hugeint_wf (mk_hugeint (2 ^ 64 - 1) (-1))
  /\ (hugeIntToNative (mk_hugeint (2 ^ 64 - 1) (-1)) = -1
      <-> hugeIntFromNative (-1) = Ok (mk_hugeint (2 ^ 64 - 1) (-1))).
Proof.
  assert (Hi : Word.in_int128 (-1)).
  { cbv; intuition discriminate. }
  assert (Hv : hugeint_wf (mk_hugeint (2 ^ 64 - 1) (-1))).
  { split; cbv; intuition discriminate. }
  split; [exact Hi|]. split; [exact Hv|].
  exact (proj2 (proj2 (hugeint_native_bijection _ _ Hi Hv))).
Defined.

(** *** Bytes and big-endian words *)

Lemma byte_to_Z_range b : 0 <= byte_to_Z b < 256.
Proof.
  unfold byte_to_Z. pose proof (Byte.to_N_bounded b). lia.
Qed.

Lemma Z_to_byte_of_mod x b : x mod 256 = byte_to_Z b -> Z_to_byte x = b.
Proof.
  intros H. unfold Z_to_byte. rewrite H. unfold byte_to_Z.
  rewrite N2Z.id, Byte.of_to_N. reflexivity.
Qed.

Lemma land_below_shifted a b k :
  0 <= k -> 0 <= a < 2 ^ k -> Z.land a (b * 2 ^ k) = 0.
Proof.
  intros Hk Ha. apply Z.bits_inj'. intros n Hn.
  rewrite Z.land_spec, Z.bits_0.
  destruct (Z.lt_ge_cases n k) as [Hlt | Hge].
  - rewrite Z.mul_pow2_bits_low by exact Hlt. apply andb_false_r.
  - rewrite <- (Z.mod_small a (2 ^ k)) by exact Ha.
    rewrite Z.mod_pow2_bits_high by lia. reflexivity.
Qed.

Lemma lor_shiftl_add a b k :
  0 <= k -> 0 <= a < 2 ^ k -> Z.lor a (Z.shiftl b k) = a + b * 2 ^ k.
Proof.
  intros Hk Ha. rewrite Z.shiftl_mul_pow2 by exact Hk.
  pose proof (Z.add_lor_land a (b * 2 ^ k)) as H.
  rewrite (land_below_shifted a b k Hk Ha) in H. lia.
Qed.

Lemma lxor_sign_bit x :
  Word.in_uint64 x ->
  Z.lxor x (Z.shiftl 1 63) = if x <? 2 ^ 63 then x + 2 ^ 63 else x - 2 ^ 63.
Proof.
  intros Hx. unfold Word.in_uint64 in Hx.
  change (Z.shiftl 1 63) with (1 * 2 ^ 63).
  destruct (Z.ltb_spec x (2 ^ 63)) as [Hlt | Hge].
  - transitivity (x + 1 * 2 ^ 63); [|lia].
    symmetry. apply Z.add_nocarry_lxor, land_below_shifted; lia.
  - set (y := x - 2 ^ 63).
    assert (Hy : 0 <= y < 2 ^ 63) by (unfold y; lia).
    assert (Hxy : x = Z.lxor y (1 * 2 ^ 63)).
    { rewrite <- Z.add_nocarry_lxor by (apply land_below_shifted; lia).
      unfold y. lia. }
    rewrite Hxy at 1.
    rewrite Z.lxor_assoc, Z.lxor_nilpotent, Z.lxor_0_r. reflexivity.
Qed.


Lemma Uint64_bytes b0 b1 b2 b3 b4 b5 b6 b7 :
  BigEndian.Uint64 [b0; b1; b2; b3; b4; b5; b6; b7]
  = byte_to_Z b0 * 2 ^ 56 + byte_to_Z b1 * 2 ^ 48
    + byte_to_Z b2 * 2 ^ 40 + byte_to_Z b3 * 2 ^ 32
    + byte_to_Z b4 * 2 ^ 24 + byte_to_Z b5 * 2 ^ 16
    + byte_to_Z b6 * 2 ^ 8 + byte_to_Z b7.
Proof.
  unfold BigEndian.Uint64, BigEndian.idx. cbn [nth].
  pose proof (byte_to_Z_range b0). pose proof (byte_to_Z_range b1).
  pose proof (byte_to_Z_range b2). pose proof (byte_to_Z_range b3).
  pose proof (byte_to_Z_range b4). pose proof (byte_to_Z_range b5).
  pose proof (byte_to_Z_range b6). pose proof (byte_to_Z_range b7).
  repeat match goal with
         | |- context [Z.lor ?a (Z.shiftl ?b ?k)] =>
             rewrite (lor_shiftl_add a b k) by lia
         end.
  lia.
Qed.

Lemma Uint64_bytes_range b0 b1 b2 b3 b4 b5 b6 b7 :
  Word.in_uint64 (BigEndian.Uint64 [b0; b1; b2; b3; b4; b5; b6; b7]).
Proof.
  rewrite Uint64_bytes.
  pose proof (byte_to_Z_range b0). pose proof (byte_to_Z_range b1).
  pose proof (byte_to_Z_range b2). pose proof (byte_to_Z_range b3).
  pose proof (byte_to_Z_range b4). pose proof (byte_to_Z_range b5).
  pose proof (byte_to_Z_range b6). pose proof (byte_to_Z_range b7).
  unfold Word.in_uint64. lia.
Qed.

Lemma PutUint64_Uint64 b0 b1 b2 b3 b4 b5 b6 b7 rest :
  BigEndian.PutUint64 rest
    (BigEndian.Uint64 [b0; b1; b2; b3; b4; b5; b6; b7])
  = [b0; b1; b2; b3; b4; b5; b6; b7] ++ skipn 8 rest.
Proof.
  unfold BigEndian.PutUint64. rewrite Uint64_bytes.
  pose proof (byte_to_Z_range b0). pose proof (byte_to_Z_range b1).
  pose proof (byte_to_Z_range b2). pose proof (byte_to_Z_range b3).
  pose proof (byte_to_Z_range b4). pose proof (byte_to_Z_range b5).
  pose proof (byte_to_Z_range b6). pose proof (byte_to_Z_range b7).
  f_equal.
  repeat (f_equal; [apply Z_to_byte_of_mod;
                    rewrite ?Z.shiftr_div_pow2 by lia;
                    Z.div_mod_to_equations; lia|]).
  f_equal. apply Z_to_byte_of_mod. Z.div_mod_to_equations. lia.
Qed.

Lemma lxor_sign_bit_range x :
  Word.in_uint64 x -> Word.in_uint64 (Z.lxor x (Z.shiftl 1 63)).
Proof.
  intros Hx. rewrite (lxor_sign_bit x Hx). unfold Word.in_uint64 in *.
  destruct (Z.ltb_spec x (2 ^ 63)); lia.
Qed.

Lemma to_uint64_to_int64 x :
  Word.in_uint64 x -> Word.to_uint64 (Word.to_int64 x) = x.
Proof.
  words. intros Hx.
  destruct (Z.ltb_spec (x mod 18446744073709551616) 9223372036854775808);
    Z.div_mod_to_equations; lia.
Qed.

Lemma to_int64_range x : Word.in_int64 (Word.to_int64 x).
Proof.
  words.
  destruct (Z.ltb_spec (x mod 18446744073709551616) 9223372036854775808);
    Z.div_mod_to_equations; lia.
Qed.

Lemma to_uint64_range x : Word.in_uint64 (Word.to_uint64 x).
Proof. words. Z.div_mod_to_equations; lia. Qed.

Lemma sign_bit_flip_twice x :
  Word.in_uint64 x ->
  Z.lxor (Word.to_uint64 (Word.to_int64 (Z.lxor x (Z.shiftl 1 63))))
         (Z.shiftl 1 63) = x.
Proof.
  intros Hx.
  rewrite (to_uint64_to_int64 _ (lxor_sign_bit_range x Hx)).
  rewrite Z.lxor_assoc, Z.lxor_nilpotent, Z.lxor_0_r. reflexivity.
Qed.

Lemma to_int64_sign_bit_flip x :
  Word.in_uint64 x ->
  Word.to_int64 (Z.lxor x (Z.shiftl 1 63)) = x - 2 ^ 63.
Proof.
  intros Hx. rewrite (lxor_sign_bit x Hx). words.
  repeat match goal with
         | |- context [?a <? ?b] => destruct (Z.ltb_spec a b)
         end; Z.div_mod_to_equations; lia.
Qed.

Lemma uuidToHugeInt_wf u : hugeint_wf (uuidToHugeInt u).
Proof.
  split; cbn [uuidToHugeInt lower upper].
  - apply to_uint64_range.
  - apply to_int64_range.
Qed.

(** Destructure a sequence known to have sixteen elements. *)
Ltac sixteen u H :=
  unfold UUID_wf, uuid_length in H;
  do 16 (destruct u as [|? u]; [discriminate H|]);
  destruct u; [clear H | discriminate H].

(** *** Claims about the UUID codec *)

(** C2. For every 16-byte UUID [u], [uuidToHugeInt] followed by
    [hugeIntToUUID] gives back exactly the sixteen bytes of [u]. *)
Theorem uuid_hugeint_roundtrip (u : UUID) :
  UUID_wf u ->
  hugeIntToUUID (uuidToHugeInt u) = u.
Proof.
  intros Hu. sixteen u Hu.
  unfold hugeIntToUUID, uuidToHugeInt, uuid_length.
  cbn [firstn skipn upper lower repeat].
  rewrite (sign_bit_flip_twice _ (Uint64_bytes_range _ _ _ _ _ _ _ _)).
  rewrite (to_uint64_small _ (to_uint64_range _)).
  rewrite (to_uint64_small _ (Uint64_bytes_range _ _ _ _ _ _ _ _)).
  rewrite !PutUint64_Uint64. reflexivity.
Qed.

Lemma uuid_hugeint_roundtrip_witness :
  UUID_wf [x80; x00; x00; x00; x00; x00; x00; x00;
           x00; x00; x20; x00; x00; x00; x00; x00]
  /\ hugeIntToUUID
       (uuidToHugeInt [x80; x00; x00; x00; x00; x00; x00; x00;
                       x00; x00; x20; x00; x00; x00; x00; x00])
     = [x80; x00; x00; x00; x00; x00; x00; x00;
        x00; x00; x20; x00; x00; x00; x00; x00].
Proof.
  split; [reflexivity|].
  apply uuid_hugeint_roundtrip. reflexivity.
Defined.

(** *** Byte order and numeric order *)

Lemma be_value_range l :
  0 <= be_value l < 256 ^ Z.of_nat (List.length l).
Proof.
  induction l as [|b l IH]; cbn [be_value List.length].
  - cbn. lia.
  - rewrite Nat2Z.inj_succ, Z.pow_succ_r by lia.
    pose proof (byte_to_Z_range b).
    set (P := 256 ^ Z.of_nat (List.length l)) in *. nia.
Qed.

Lemma bytes_lt_be_value a :
  forall b, List.length a = List.length b ->
  (bytes_lt a b = true <-> be_value a < be_value b).
Proof.
  induction a as [|x a IH]; intros [|y b] Hlen; try discriminate Hlen.
  - cbn. split; [discriminate | lia].
  - cbn [bytes_lt be_value].
    injection Hlen as Hlen. rewrite <- Hlen.
    pose proof (be_value_range a) as Ha.
    pose proof (be_value_range b) as Hb. rewrite <- Hlen in Hb.
    specialize (IH b Hlen).
    set (P := 256 ^ Z.of_nat (List.length a)) in *.
    rewrite orb_true_iff, andb_true_iff, Z.ltb_lt, Z.eqb_eq, IH.
    split.
    + intros [Hlt | [Heq Hlt]]; nia.
    + intros Hlt.
      destruct (Z.lt_trichotomy (byte_to_Z x) (byte_to_Z y))
        as [H | [H | H]]; [left; exact H | right; split; [exact H | nia] | nia].
Qed.

Lemma uuidToHugeInt_native u :
  UUID_wf u ->
  hugeIntToNative (uuidToHugeInt u) = be_value u - 2 ^ 127.
Proof.
  intros Hu. rewrite (hugeIntToNative_eq _ (uuidToHugeInt_wf u)).
  sixteen u Hu.
  unfold uuidToHugeInt. cbn [firstn skipn upper lower].
  rewrite (to_int64_sign_bit_flip _ (Uint64_bytes_range _ _ _ _ _ _ _ _)).
  rewrite (to_uint64_small _ (Uint64_bytes_range _ _ _ _ _ _ _ _)).
  rewrite !Uint64_bytes.
  cbn [be_value List.length].
  repeat match goal with
         | |- context [Z.of_nat ?n] =>
             let v := eval vm_compute in (Z.of_nat n) in
             change (Z.of_nat n) with v
         end.
  lia.
Qed.

(** C6. The sign-bit flip of [uuidToHugeInt] preserves order: for
    16-byte UUIDs [u1] and [u2], [u1] is below [u2] in the lexicographic
    order of their bytes exactly when the signed 128-bit value of
    [uuidToHugeInt u1] is below that of [uuidToHugeInt u2]. *)
Theorem uuidToHugeInt_order (u1 u2 : UUID) :
  UUID_wf u1 ->
  UUID_wf u2 ->
  (bytes_lt u1 u2 = true
   <-> hugeIntToNative (uuidToHugeInt u1)
       < hugeIntToNative (uuidToHugeInt u2)).
Proof.
  intros H1 H2.
  rewrite (uuidToHugeInt_native u1 H1), (uuidToHugeInt_native u2 H2).
  rewrite (bytes_lt_be_value u1 u2) by (rewrite H1, H2; reflexivity).
  lia.
Qed.

Lemma uuidToHugeInt_order_witness :
  bytes_lt
    [x7f; xff; xff; xff; xff; xff; xff; xff;
     xff; xff; xff; xff; xff; xff; xff; xff]
    [x80; x00; x00; x00; x00; x00; x00; x00;
     x00; x00; x00; x00; x00; x00; x00; x00] = true
  <-> hugeIntToNative
        (uuidToHugeInt
           [x7f; xff; xff; xff; xff; xff; xff; xff;
            xff; xff; xff; xff; xff; xff; xff; xff])
      < hugeIntToNative
          (uuidToHugeInt
             [x80; x00; x00; x00; x00; x00; x00; x00;
              x00; x00; x00; x00; x00; x00; x00; x00]).
Proof.
  apply uuidToHugeInt_order; reflexivity.
Defined.

(** *** UUID.Scan *)

Lemma copy_same_length (dst src : list byte) :
  List.length dst = List.length src -> copy dst src = src.
Proof.
  intros H. unfold copy. rewrite H, firstn_all, <- H, skipn_all.
  apply app_nil_r.
Qed.

(** C7. [UUID.Scan] accepts two input shapes.  A byte sequence of length
    16 is copied into the UUID as it is; a byte sequence of any other
    length is handled as the string with the same bytes; a string is
    parsed with [uuid.Parse] and, when it parses, the parsed UUID is
    copied; a string that does not parse returns the parse error and an
    input of any other type returns an error, the UUID left as it was. *)
Theorem UUID_Scan_shapes (E : Type) (Parse : string -> result (list byte) E)
    (u : UUID) (v : any) :
  UUID_wf u ->
  match v with
  | AnyBytes val =>
      if Nat.eqb (List.length val) 16 then
        Scan E Parse u v = (val, None)
      else
        Scan E Parse u v
        = Scan E Parse u (AnyString (string_of_list_byte val))
  | AnyString s =>
      match Parse s with
      | Ok id =>
          Scan E Parse u v = (copy u id, None)
          /\ (UUID_wf id -> copy u id = id)
      | Err e => Scan E Parse u v = (u, Some (ParseError e))
      end
  | AnyOther type_name =>
      Scan E Parse u v = (u, Some (InvalidValueType type_name))
  end.
Proof.
  intros Hu. destruct v as [val | s | type_name]; cbn [Scan].
  - unfold uuid_length.
    destruct (Nat.eqb (List.length val) 16) eqn:Hlen; cbn [negb].
    + apply Nat.eqb_eq in Hlen.
      rewrite copy_same_length by (rewrite Hu, Hlen; reflexivity).
      reflexivity.
    + reflexivity.
  - unfold Scan_string. destruct (Parse s) as [id | e].
    + split; [reflexivity|]. intros Hid.
      apply copy_same_length. rewrite Hu, Hid. reflexivity.
    + reflexivity.
  - reflexivity.
Qed.

Lemma UUID_Scan_shapes_witness :
  UUID_wf (repeat x00 16)
  /\ Scan unit (fun _ => Err tt) (repeat x00 16)
       (AnyBytes [x01; x02; x03; x04; x05; x06; x07; x08;
                  x09; x0a; x0b; x0c; x0d; x0e; x0f; x10])
     = ([x01; x02; x03; x04; x05; x06; x07; x08;
         x09; x0a; x0b; x0c; x0d; x0e; x0f; x10], None).
Proof.
  split; [reflexivity|].
  exact (UUID_Scan_shapes unit (fun _ => Err tt) (repeat x00 16)
           (AnyBytes [x01; x02; x03; x04; x05; x06; x07; x08;
                      x09; x0a; x0b; x0c; x0d; x0e; x0f; x10])
           eq_refl).
Defined.

(** *** Interval *)

(** C9. Equality of [Interval] values is the comparison of the three
    fields, with no calendar normalization: two intervals are equal
    exactly when [Months], [Days] and [Micros] are all equal, so one day
    as [Days = 1] and one day as [Micros = 86400000000] are different
    intervals although they stand for the same length of time. *)
Theorem Interval_eq_fieldwise (a b : Interval) :
  (Interval_eq a b = true
   <-> Months a = Months b /\ Days a = Days b /\ Micros a = Micros b)
  /\ (Interval_eq a b = true <-> a = b)
  /\ Interval_eq (mk_Interval 1 0 0) (mk_Interval 0 0 86400000000) = false
  /\ Interval_nominal_micros (mk_Interval 1 0 0)
     = Interval_nominal_micros (mk_Interval 0 0 86400000000).
Proof.
  assert (H : Interval_eq a b = true
              <-> Months a = Months b /\ Days a = Days b
                  /\ Micros a = Micros b).
  { unfold Interval_eq. rewrite !andb_true_iff, !Z.eqb_eq. tauto. }
  split; [exact H|]. split; [|split; reflexivity].
  rewrite H. destruct a, b; cbn [Days Months Micros]. split.
  - intros (-> & -> & ->). reflexivity.
  - intros Heq. injection Heq as -> -> ->. auto.
Qed.

(** *** Strings as lists of characters *)

Lemma chars_app (s1 s2 : string) :
  list_ascii_of_string (s1 ++ s2)
  = list_ascii_of_string s1 ++ list_ascii_of_string s2.
Proof.
  induction s1 as [|c s1 IH]; cbn; [reflexivity|]. rewrite IH. reflexivity.
Qed.

Lemma chars_length (s : string) :
  String.length s = List.length (list_ascii_of_string s).
Proof.
  induction s as [|c s IH]; cbn; [reflexivity|]. rewrite IH. reflexivity.
Qed.

Lemma chars_get (s : string) :
  forall i, get i s = nth_error (list_ascii_of_string s) i.
Proof.
  induction s as [|c s IH]; intros [|i]; cbn; try reflexivity. apply IH.
Qed.

Lemma chars_substring (s : string) :
  forall n m,
    list_ascii_of_string (substring n m s)
    = firstn m (skipn n (list_ascii_of_string s)).
Proof.
  induction s as [|c s IH]; intros [|n] [|m]; cbn; try reflexivity.
  - rewrite IH. reflexivity.
  - rewrite IH. reflexivity.
  - rewrite IH. reflexivity.
Qed.

Lemma chars_Repeat_nat (c : ascii) (n : nat) :
  list_ascii_of_string (Strings.Repeat_nat (String c EmptyString) n)
  = repeat c n.
Proof.
  induction n as [|n IH]; cbn; [reflexivity|]. rewrite IH. reflexivity.
Qed.

Lemma chars_slice (s : string) (lo hi : Z) :
  list_ascii_of_string (Strings.slice s lo hi)
  = firstn (Z.to_nat (hi - lo)) (skipn (Z.to_nat lo) (list_ascii_of_string s)).
Proof. apply chars_substring. Qed.

(** *** Trimming from the right *)

Import ToStringRules.

Lemma take_drop_while f l : take_while f l ++ drop_while f l = l.
Proof.
  induction l as [|c l IH]; cbn; [reflexivity|].
  destruct (f c); cbn; [rewrite IH|]; reflexivity.
Qed.

Lemma trailing_zeros_le digits :
  (trailing_zeros digits <= List.length digits)%nat.
Proof.
  unfold trailing_zeros.
  rewrite <- (length_rev digits).
  rewrite <- (take_drop_while is_zero_digit (rev digits)) at 2.
  rewrite length_app. lia.
Qed.

Lemma trim_trailing_zeros_firstn digits :
  trim_trailing_zeros digits
  = firstn (List.length digits - trailing_zeros digits) digits.
Proof.
  unfold trim_trailing_zeros, trailing_zeros.
  pose proof (take_drop_while is_zero_digit (rev digits)) as H.
  apply (f_equal (@rev ascii)) in H.
  rewrite rev_app_distr, rev_involutive in H.
  remember (take_while is_zero_digit (rev digits)) as tw eqn:Htw.
  remember (drop_while is_zero_digit (rev digits)) as dw eqn:Hdw.
  clear Htw Hdw. subst digits.
  rewrite length_app, !length_rev.
  replace (List.length dw + List.length tw - List.length tw)%nat
    with (List.length (rev dw) + 0)%nat
    by (rewrite length_rev; lia).
  rewrite firstn_app_2. cbn [firstn]. rewrite app_nil_r. reflexivity.
Qed.

Lemma lastIndexFunc_loop_spec (s : string) (f : ascii -> bool) :
  forall i, (i <= String.length s)%nat ->
    Strings.lastIndexFunc_loop s f false i + 1
    = Z.of_nat
        (i - List.length
               (take_while f (rev (firstn i (list_ascii_of_string s))))).
Proof.
  induction i as [|i IH]; intros Hi.
  - reflexivity.
  - cbn [Strings.lastIndexFunc_loop].
    rewrite chars_get.
    rewrite chars_length in Hi.
    destruct (nth_error (list_ascii_of_string s) i) as [c|] eqn:Hc.
    + assert (Hfirst : firstn (S i) (list_ascii_of_string s)
                       = firstn i (list_ascii_of_string s) ++ [c]).
      { clear IH. revert i Hi Hc.
        induction (list_ascii_of_string s) as [|a l IHl]; intros i Hi Hc.
        - destruct i; discriminate Hc.
        - destruct i as [|i]; cbn in *.
          + injection Hc as ->. reflexivity.
          + f_equal. apply IHl; [lia | exact Hc]. }
      rewrite Hfirst, rev_app_distr. cbn [rev app take_while].
      destruct (f c); cbn [Bool.eqb].
      * rewrite IH by (rewrite chars_length; lia).
        cbn [List.length]. lia.
      * cbn [List.length]. lia.
    + apply nth_error_None in Hc. lia.
Qed.

Lemma chars_TrimRightFunc (s : string) :
  list_ascii_of_string
    (Strings.TrimRightFunc s (fun r => Ascii.eqb r "0"%char))
  = trim_trailing_zeros (list_ascii_of_string s).
Proof.
  unfold Strings.TrimRightFunc, Strings.lastIndexFunc.
  rewrite chars_slice, lastIndexFunc_loop_spec by lia.
  rewrite chars_length, firstn_all.
  rewrite trim_trailing_zeros_firstn. unfold trailing_zeros, is_zero_digit.
  cbn [Z.to_nat skipn]. rewrite Z.sub_0_r, Nat2Z.id. reflexivity.
Qed.

Lemma trim_trailing_zeros_length digits :
  Z.of_nat (List.length digits)
  - Z.of_nat (List.length (trim_trailing_zeros digits))
  = Z.of_nat (trailing_zeros digits).
Proof.
  rewrite trim_trailing_zeros_firstn, length_firstn.
  pose proof (trailing_zeros_le digits). lia.
Qed.

Lemma substring_whole (s : string) : substring 0 (String.length s) s = s.
Proof.
  induction s as [|c s IH]; cbn; [reflexivity|]. rewrite IH. reflexivity.
Qed.

Lemma slice_after_first (c : ascii) (s : string) :
  Strings.slice (String c s) 1 (Strings.len (String c s)) = s.
Proof.
  unfold Strings.slice, Strings.len. cbn [String.length].
  replace (Z.to_nat (Z.of_nat (S (String.length s)) - 1))
    with (String.length s) by lia.
  change (Z.to_nat 1) with 1%nat. cbn [substring].
  apply substring_whole.
Qed.

Lemma BigInt_String_neg (p : positive) :
  BigInt.String (Z.neg p)
  = String "-"%char (BigInt.String (Z.pos p)).
Proof. reflexivity. Qed.

(** The part of [Decimal.String] after the sign has been removed,
    character by character. *)
Lemma Decimal_String_body (signStr scaleless : string) (sc : Z) :
  list_ascii_of_string
    (let zeroTrimmed :=
       Strings.TrimRightFunc scaleless (fun r => Ascii.eqb r "0"%char) in
     let scale :=
       sc - (Strings.len scaleless - Strings.len zeroTrimmed) in
     if scale <=? 0 then
       (signStr ++ zeroTrimmed ++ Strings.Repeat "0" (-1 * scale))%string
     else if Strings.len zeroTrimmed <=? scale then
       (signStr ++ "0."
          ++ Strings.Repeat "0" (scale - Strings.len zeroTrimmed)
          ++ zeroTrimmed)%string
     else
       (signStr
          ++ Strings.slice zeroTrimmed 0 (Strings.len zeroTrimmed - scale)
          ++ "."
          ++ Strings.slice zeroTrimmed (Strings.len zeroTrimmed - scale)
               (Strings.len zeroTrimmed))%string)
  = (let digits := list_ascii_of_string scaleless in
     let trimmed := trim_trailing_zeros digits in
     let reduced := sc - Z.of_nat (trailing_zeros digits) in
     if reduced <=? 0 then
       list_ascii_of_string signStr ++ trimmed ++ zeros (- reduced)
     else if Z.of_nat (List.length trimmed) <=? reduced then
       list_ascii_of_string signStr ++ ["0"; "."]%char
         ++ zeros (reduced - Z.of_nat (List.length trimmed))
         ++ trimmed
     else
       list_ascii_of_string signStr
         ++ point_from_right (Z.to_nat reduced) trimmed).
Proof.
  cbv zeta.
  pose proof (chars_TrimRightFunc scaleless) as Ht.
  set (t := Strings.TrimRightFunc scaleless (fun r => Ascii.eqb r "0"%char))
    in *.
  set (digits := list_ascii_of_string scaleless) in *.
  assert (Hlt : Strings.len t
                = Z.of_nat (List.length (trim_trailing_zeros digits))).
  { unfold Strings.len. rewrite chars_length, Ht. reflexivity. }
  assert (Hsc : sc - (Strings.len scaleless - Strings.len t)
                = sc - Z.of_nat (trailing_zeros digits)).
  { rewrite Hlt. unfold Strings.len. rewrite chars_length.
    fold digits. rewrite trim_trailing_zeros_length. reflexivity. }
  rewrite Hsc, Hlt.
  set (reduced := sc - Z.of_nat (trailing_zeros digits)).
  set (T := trim_trailing_zeros digits) in *.
  destruct (Z.leb_spec reduced 0) as [Hle | Hgt].
  - rewrite !chars_app, Ht. unfold Strings.Repeat, zeros.
    rewrite chars_Repeat_nat.
    replace (-1 * reduced) with (- reduced) by lia. reflexivity.
  - destruct (Z.leb_spec (Z.of_nat (List.length T)) reduced) as [Hpad | Hpt].
    + rewrite !chars_app, Ht. unfold Strings.Repeat, zeros.
      rewrite chars_Repeat_nat. reflexivity.
    + rewrite !chars_app, !chars_slice, Ht. unfold point_from_right.
      rewrite skipn_rev, firstn_rev, !rev_involutive.
      cbn [Z.to_nat skipn list_ascii_of_string].
      replace (Z.to_nat (Z.of_nat (List.length T) - reduced - 0))
        with (List.length T - Z.to_nat reduced)%nat by lia.
      replace (Z.to_nat (Z.of_nat (List.length T) - reduced))
        with (List.length T - Z.to_nat reduced)%nat by lia.
      rewrite (firstn_all2 (n := Z.to_nat _))
        by (rewrite length_skipn; lia).
      reflexivity.
Qed.

(** *** Claim about Decimal.String *)

(** C4. For every [Decimal], [String] produces the decimal text by the
    string rules of the specification: a zero magnitude gives "0";
    otherwise the trailing zero digits of the magnitude are trimmed and
    the scale reduced by their number; a reduced scale <= 0 gives the
    digits followed by that many zeros and no point; at most as many
    digits as the reduced scale give sign, "0.", zero padding and the
    digits; otherwise a point is put reduced-scale digits from the right.
    In particular 0 -> "0", (123, 2) -> "1.23", (12345, 0) -> "12345",
    (100, 3) -> "0.1" and (-5, 2) -> "-0.05". *)
Theorem Decimal_String_rules (d : Decimal) (w s : Z) :
  Decimal_String d = ToStringRules.toString (Scale d) (Value d)
  /\ Decimal_String (mk_Decimal w s 0) = "0"%string
  /\ Decimal_String (mk_Decimal w 2 123) = "1.23"%string
  /\ Decimal_String (mk_Decimal w 0 12345) = "12345"%string
  /\ Decimal_String (mk_Decimal w 3 100) = "0.1"%string
  /\ Decimal_String (mk_Decimal w 2 (-5)) = "-0.05"%string.
Proof.
  split; [|repeat split; reflexivity].
  destruct d as [wd sc v]. unfold Decimal_String, toString.
  cbn [Value Scale]. unfold BigInt.Sign, sign_of, digits_of.
  destruct v as [|p|p].
  - reflexivity.
  - change (Z.sgn (Z.pos p) =? 0) with false.
    change (Z.sgn (Z.pos p) <? 0) with false.
    change (Z.pos p =? 0) with false.
    change (Z.pos p <? 0) with false.
    change (Z.abs (Z.pos p)) with (Z.pos p).
    cbv iota.
    rewrite <- (string_of_list_ascii_of_string _) at 1.
    f_equal.
    exact (Decimal_String_body ""%string (BigInt.String (Z.pos p)) sc).
  - change (Z.sgn (Z.neg p) =? 0) with false.
    change (Z.sgn (Z.neg p) <? 0) with true.
    change (Z.neg p =? 0) with false.
    change (Z.neg p <? 0) with true.
    change (Z.abs (Z.neg p)) with (Z.pos p).
    cbv iota.
    rewrite BigInt_String_neg, slice_after_first.
    rewrite <- (string_of_list_ascii_of_string _) at 1.
    f_equal.
    exact (Decimal_String_body "-"%string (BigInt.String (Z.pos p)) sc).
Qed.

(** *** Decoding a record into a record *)

Section DecodeFacts.

Import Mapstructure.

Variables T V : Type.
Variable zero_of : T -> V.
Variable coerce : T -> V -> option V.
Variable EqualFold : string -> string -> bool.

Local Abbreviation field := (field T).
Local Abbreviation record := (record T V).
Local Abbreviation match_name := (match_name T).
Local Abbreviation ftype := (ftype T).
Local Abbreviation assign := (assign T V coerce EqualFold).
Local Abbreviation Decode := (Decode T V coerce EqualFold).
Local Abbreviation Scan := (Composite_Scan T V coerce EqualFold).
Local Abbreviation zero_record := (zero_record T V zero_of).
Local Abbreviation assigned := (assigned T V coerce EqualFold).
Local Abbreviation decoded := (decoded T V coerce EqualFold).

Lemma assign_assigned k v :
  forall dst dst', assign k v dst = Ok dst' ->
                   Forall2 (assigned k v) dst dst'.
Proof.
  induction dst as [|[f cur] rest IH]; intros dst' H; cbn in H.
  - injection H as <-. constructor.
  - destruct (EqualFold (match_name f) k) eqn:Hm.
    + destruct (coerce (ftype f) v) as [v'|] eqn:Hc; [|discriminate H].
      destruct (assign k v rest) as [rest'|e]; [|discriminate H].
      injection H as <-. constructor; [|apply IH; reflexivity].
      split; [reflexivity|]. cbn [fst snd]. rewrite Hm. exact Hc.
    + destruct (assign k v rest) as [rest'|e]; [|discriminate H].
      injection H as <-. constructor; [|apply IH; reflexivity].
      split; [reflexivity|]. cbn [fst snd]. rewrite Hm. reflexivity.
Qed.

Lemma assign_unmatched k v :
  forall dst,
    (forall f, In f (map fst dst) -> EqualFold (match_name f) k = false) ->
    assign k v dst = Ok dst.
Proof.
  induction dst as [|[f cur] rest IH]; intros H; cbn.
  - reflexivity.
  - rewrite (H f) by (left; reflexivity).
    rewrite IH by (intros g Hg; apply H; right; exact Hg). reflexivity.
Qed.

Lemma Forall2_assigned_fields k v dst dst' :
  Forall2 (assigned k v) dst dst' -> map fst dst' = map fst dst.
Proof.
  induction 1 as [|a b l l' [Hf _] _ IH]; cbn; [reflexivity|].
  rewrite Hf, IH. reflexivity.
Qed.

Lemma Forall2_decoded_fields src dst dst' :
  Forall2 (decoded src) dst dst' -> map fst dst' = map fst dst.
Proof.
  induction 1 as [|a b l l' [Hf _] _ IH]; cbn; [reflexivity|].
  rewrite Hf, IH. reflexivity.
Qed.

Lemma decoded_step k v src a b c :
  assigned k v a b -> decoded src b c -> decoded ((k, v) :: src) a c.
Proof.
  intros [Hab Hstep] [Hbc Hrest]. rewrite Hab in Hbc, Hrest.
  split; [exact Hbc|].
  destruct Hrest as [(k' & v' & Hin & Hm & Hc) | [Hnone Hkeep]].
  - left. exists k', v'. split; [right; exact Hin|]. split; assumption.
  - destruct (EqualFold (match_name (fst a)) k) eqn:Hm.
    + left. exists k, v. split; [left; reflexivity|].
      split; [exact Hm|]. rewrite Hkeep. exact Hstep.
    + right. split; [|congruence].
      intros k' v' [Heq | Hin].
      * injection Heq as <- <-. exact Hm.
      * exact (Hnone k' v' Hin).
Qed.

Lemma Forall2_decoded_step k v src :
  forall l1 l2, Forall2 (assigned k v) l1 l2 ->
  forall l3, Forall2 (decoded src) l2 l3 ->
             Forall2 (decoded ((k, v) :: src)) l1 l3.
Proof.
  induction 1 as [|a b l1 l2 Hab _ IH]; intros l3 H23;
    inversion H23; subst; constructor.
  - eapply decoded_step; eassumption.
  - apply IH. assumption.
Qed.

Lemma decoded_nil : forall dst, Forall2 (decoded []) dst dst.
Proof.
  induction dst as [|a dst IH]; constructor; [|exact IH].
  split; [reflexivity|]. right. split; [|reflexivity].
  intros k v [].
Qed.

Lemma Decode_decoded :
  forall src dst dst', Decode src dst = Ok dst' ->
                       Forall2 (decoded src) dst dst'.
Proof.
  induction src as [|[k v] src IH]; intros dst dst' H; cbn in H.
  - injection H as <-. apply decoded_nil.
  - destruct (assign k v dst) as [dst1|e] eqn:Ha; [|discriminate H].
    eapply Forall2_decoded_step.
    + apply assign_assigned. exact Ha.
    + apply IH. exact H.
Qed.

(** A source field that matches no destination field changes nothing,
    wherever it stands in the source and whatever the outcome. *)
Lemma Decode_unmatched k v src2 :
  forall src1 dst,
    (forall f, In f (map fst dst) -> EqualFold (match_name f) k = false) ->
    Decode (src1 ++ (k, v) :: src2) dst = Decode (src1 ++ src2) dst.
Proof.
  induction src1 as [|[k1 v1] src1 IH]; intros dst Hno; cbn.
  - rewrite (assign_unmatched k v dst Hno). reflexivity.
  - destruct (assign k1 v1 dst) as [dst1|e] eqn:Ha; [|reflexivity].
    apply IH. intros f Hf. apply Hno.
    rewrite <- (Forall2_assigned_fields _ _ _ _ (assign_assigned _ _ _ _ Ha)).
    exact Hf.
Qed.

Lemma Forall2_In_r (R : field * V -> field * V -> Prop) l l' b :
  Forall2 R l l' -> In b l' -> exists a, In a l /\ R a b.
Proof.
  induction 1 as [|a0 b0 l l' HR _ IH]; intros Hin; [destruct Hin|].
  destruct Hin as [<- | Hin].
  - exists a0. split; [left; reflexivity | exact HR].
  - destruct (IH Hin) as (a & Ha & HRa).
    exists a. split; [right; exact Ha | exact HRa].
Qed.


End DecodeFacts.



(** ** Further properties of the conversions *)

(** *** HUGEINT *)

(** X1. [hugeIntToNative] is strictly increasing for the order that
    compares the signed upper words first and the unsigned lower words
    second. *)
Theorem hugeIntToNative_lexicographic (v1 v2 : duckdb_hugeint) :
  hugeint_wf v1 ->
  hugeint_wf v2 ->
  (hugeIntToNative v1 < hugeIntToNative v2
   <-> upper v1 < upper v2
       \/ (upper v1 = upper v2 /\ lower v1 < lower v2)).
Proof.
  intros H1 H2.
  rewrite (hugeIntToNative_eq _ H1), (hugeIntToNative_eq _ H2).
  destruct H1 as [Hl1 Hu1], H2 as [Hl2 Hu2]. words. lia.
Qed.

Lemma hugeIntToNative_lexicographic_witness :
  hugeIntToNative (mk_hugeint (2 ^ 64 - 1) (-1))
  < hugeIntToNative (mk_hugeint 0 0)
  <-> -1 < 0 \/ (-1 = 0 /\ 2 ^ 64 - 1 < 0).
Proof.
  assert (H1 : hugeint_wf (mk_hugeint (2 ^ 64 - 1) (-1))).
  { split; cbv; intuition discriminate. }
  assert (H2 : hugeint_wf (mk_hugeint 0 0)).
  { split; cbv; intuition discriminate. }
  exact (hugeIntToNative_lexicographic _ _ H1 H2).
Defined.

(** X2. A big integer that fits a signed 64-bit word converts to its
    sign extension: the lower word is its 64-bit two's-complement
    pattern and the upper word is 0, or -1 when it is negative. *)
Theorem hugeIntFromNative_sign_extension (i : Z) :
  Word.in_int64 i ->
  hugeIntFromNative i
  = Ok {| lower := Word.to_uint64 i; upper := if i <? 0 then -1 else 0 |}.
Proof.
  intros Hi.
  assert (H128 : Word.in_int128 i) by (words; lia).
  rewrite (hugeIntFromNative_in_range _ H128).
  f_equal. unfold Word.to_uint64. f_equal.
  words. destruct (Z.ltb_spec i 0); Z.div_mod_to_equations; lia.
Qed.

Lemma hugeIntFromNative_sign_extension_witness :
  hugeIntFromNative (- 2 ^ 63)
  = Ok {| lower := 2 ^ 63; upper := -1 |}.
Proof.
  assert (H : Word.in_int64 (- 2 ^ 63)).
  { cbv; intuition discriminate. }
  exact (hugeIntFromNative_sign_extension _ H).
Defined.

(** *** UUID and HUGEINT *)

Lemma byte_to_Z_to_byte x : byte_to_Z (Z_to_byte x) = x mod 256.
Proof.
  unfold Z_to_byte, byte_to_Z.
  assert (Hm := Z.mod_pos_bound x 256 ltac:(lia)).
  destruct (Byte.of_N (Z.to_N (x mod 256))) as [b|] eqn:Hb.
  - apply Byte.to_of_N in Hb. rewrite Hb. lia.
  - apply Byte.of_N_None_iff in Hb. lia.
Qed.

Lemma Uint64_PutUint64 rest v :
  Word.in_uint64 v ->
  BigEndian.Uint64 (firstn 8 (BigEndian.PutUint64 rest v)) = v.
Proof.
  intros Hv. unfold BigEndian.PutUint64. cbn [firstn app].
  rewrite Uint64_bytes, !byte_to_Z_to_byte.
  rewrite !Z.shiftr_div_pow2 by lia.
  words. Z.div_mod_to_equations. lia.
Qed.

Lemma PutUint64_length rest v :
  List.length (BigEndian.PutUint64 rest v) = (8 + List.length (skipn 8 rest))%nat.
Proof. reflexivity. Qed.

Lemma hugeIntToUUID_bytes hi :
  hugeIntToUUID hi
  = firstn 8 (BigEndian.PutUint64 []
                (Z.lxor (Word.to_uint64 (upper hi)) (Z.shiftl 1 63)))
    ++ firstn 8 (BigEndian.PutUint64 [] (Word.to_uint64 (lower hi))).
Proof. reflexivity. Qed.

Lemma uuidToHugeInt_bytes w l :
  uuidToHugeInt (firstn 8 (BigEndian.PutUint64 [] w)
                 ++ firstn 8 (BigEndian.PutUint64 [] l))
  = {| upper :=
         Word.to_int64
           (Z.lxor (BigEndian.Uint64 (firstn 8 (BigEndian.PutUint64 [] w)))
                   (Z.shiftl 1 63));
       lower :=
         Word.to_uint64
           (BigEndian.Uint64 (firstn 8 (BigEndian.PutUint64 [] l))) |}.
Proof. reflexivity. Qed.

(** X3. [hugeIntToUUID] returns sixteen bytes, and [uuidToHugeInt] maps
    them back to the value they came from: with the round trip of the
    other direction, the two functions are inverse bijections between
    16-byte sequences and pairs of 64-bit words. *)
Theorem hugeint_uuid_roundtrip (hi : duckdb_hugeint) :
  hugeint_wf hi ->
  UUID_wf (hugeIntToUUID hi)
  /\ uuidToHugeInt (hugeIntToUUID hi) = hi.
Proof.
  intros [Hl Hu]. split; [reflexivity|].
  rewrite hugeIntToUUID_bytes, uuidToHugeInt_bytes.
  destruct hi as [l u]. cbn [lower upper] in *.
  rewrite (Uint64_PutUint64 [] _
             (lxor_sign_bit_range _ (to_uint64_range u))).
  rewrite (Uint64_PutUint64 [] _ (to_uint64_range l)).
  rewrite (to_uint64_small _ (to_uint64_range l)), (to_uint64_small _ Hl).
  f_equal.
  rewrite Z.lxor_assoc, Z.lxor_nilpotent, Z.lxor_0_r.
  words. repeat match goal with
                | |- context [?a <? ?b] => destruct (Z.ltb_spec a b)
                end; Z.div_mod_to_equations; lia.
Qed.

Lemma hugeint_uuid_roundtrip_witness :
  uuidToHugeInt (hugeIntToUUID (mk_hugeint 2 (-1))) = mk_hugeint 2 (-1).
Proof.
  assert (H : hugeint_wf (mk_hugeint 2 (-1))).
  { split; cbv; intuition discriminate. }
  exact (proj2 (hugeint_uuid_roundtrip _ H)).
Defined.

Lemma byte_to_Z_inj x y : byte_to_Z x = byte_to_Z y -> x = y.
Proof.
  intros H.
  rewrite <- (Z_to_byte_of_mod (byte_to_Z x) x), H.
  - apply Z_to_byte_of_mod, Z.mod_small, byte_to_Z_range.
  - apply Z.mod_small, byte_to_Z_range.
Qed.

Lemma be_value_inj a :
  forall b, List.length a = List.length b ->
            be_value a = be_value b -> a = b.
Proof.
  induction a as [|x a IH]; intros [|y b] Hlen Hv; try discriminate Hlen.
  - reflexivity.
  - injection Hlen as Hlen. cbn [be_value] in Hv. rewrite <- Hlen in Hv.
    pose proof (be_value_range a) as Ha.
    pose proof (be_value_range b) as Hb. rewrite <- Hlen in Hb.
    pose proof (byte_to_Z_range x). pose proof (byte_to_Z_range y).
    set (P := 256 ^ Z.of_nat (List.length a)) in *.
    assert (Hxy : byte_to_Z x = byte_to_Z y) by nia.
    rewrite (byte_to_Z_inj _ _ Hxy). f_equal.
    apply IH; [exact Hlen | nia].
Qed.

(** X4. The 128-bit integer of a UUID is the unsigned big-endian number
    its sixteen bytes spell, moved down by 2^127; so it is negative
    exactly for the UUIDs whose first byte is below 0x80, and the nil
    UUID is the smallest HUGEINT. *)
Theorem uuidToHugeInt_offset_binary (u : UUID) :
  UUID_wf u ->
  hugeIntToNative (uuidToHugeInt u) = be_value u - 2 ^ 127
  /\ (hugeIntToNative (uuidToHugeInt u) < 0
      <-> byte_to_Z (hd x00 u) < 128)
  /\ (hugeIntToNative (uuidToHugeInt u) = - 2 ^ 127
      <-> u = repeat x00 16).
Proof.
  intros Hu. pose proof (uuidToHugeInt_native u Hu) as Hn.
  split; [exact Hn|]. rewrite Hn.
  assert (Hz : be_value (repeat x00 16) = 0) by reflexivity.
  split.
  - destruct u as [|b l]; [discriminate Hu|].
    unfold UUID_wf, uuid_length in Hu. injection Hu as Hl.
    cbn [hd be_value]. pose proof (be_value_range l) as Hr.
    rewrite Hl in *. change (Z.of_nat 15) with 15 in *.
    pose proof (byte_to_Z_range b). lia.
  - split.
    + intros H. apply be_value_inj; [rewrite Hu; reflexivity|].
      rewrite Hz. lia.
    + intros ->. rewrite Hz. lia.
Qed.

Lemma uuidToHugeInt_offset_binary_witness :
  hugeIntToNative
    (uuidToHugeInt [x80; x00; x00; x00; x00; x00; x00; x00;
                    x00; x00; x00; x00; x00; x00; x00; x01])
  = be_value [x80; x00; x00; x00; x00; x00; x00; x00;
              x00; x00; x00; x00; x00; x00; x00; x01] - 2 ^ 127.
Proof.
  exact (proj1 (uuidToHugeInt_offset_binary
                  [x80; x00; x00; x00; x00; x00; x00; x00;
                   x00; x00; x00; x00; x00; x00; x00; x01] eq_refl)).
Defined.

(** *** UUID.String *)

Lemma UUID_String_sixteen b0 b1 b2 b3 b4 b5 b6 b7 b8 b9 b10 b11 b12 b13 b14
    b15 :
  UUID_String [b0; b1; b2; b3; b4; b5; b6; b7;
               b8; b9; b10; b11; b12; b13; b14; b15]
  = Ok (string_of_list_byte
          (hex_pair b0 ++ hex_pair b1 ++ hex_pair b2 ++ hex_pair b3
           ++ ["-"%byte] ++ hex_pair b4 ++ hex_pair b5
           ++ ["-"%byte] ++ hex_pair b6 ++ hex_pair b7
           ++ ["-"%byte] ++ hex_pair b8 ++ hex_pair b9
           ++ ["-"%byte] ++ hex_pair b10 ++ hex_pair b11 ++ hex_pair b12
           ++ hex_pair b13 ++ hex_pair b14 ++ hex_pair b15)).
Proof. reflexivity. Qed.

Lemma string_of_list_byte_length (l : list byte) :
  String.length (string_of_list_byte l) = List.length l.
Proof.
  unfold string_of_list_byte.
  rewrite chars_length, list_ascii_of_string_of_list_ascii.
  apply length_map.
Qed.

Lemma hex_high_char b :
  is_hex_char (Hex.digit (Z.shiftr (byte_to_Z b) 4)) = true.
Proof. destruct b; vm_compute; reflexivity. Qed.

Lemma hex_low_char b :
  is_hex_char (Hex.digit (Z.land (byte_to_Z b) 15)) = true.
Proof. destruct b; vm_compute; reflexivity. Qed.

Lemma hex_pair_value b :
  Z_to_byte (16 * hex_value (nth 0 (hex_pair b) x00)
             + hex_value (nth 1 (hex_pair b) x00)) = b.
Proof. destruct b; vm_compute; reflexivity. Qed.

Lemma hex_pair_inj b b' : hex_pair b = hex_pair b' -> b = b'.
Proof.
  intros H. rewrite <- (hex_pair_value b), H. apply hex_pair_value.
Qed.

(** X5. [UUID.String] never panics and always returns 36 characters:
    a hyphen at each of the positions 8, 13, 18 and 23 and a character of
    "0123456789abcdef" at every other position. *)
Theorem UUID_String_format (u : UUID) :
  UUID_wf u ->
  exists s,
    UUID_String u = Ok s
    /\ String.length s = 36%nat
    /\ forall i c,
         nth_error (list_byte_of_string s) i = Some c ->
         if existsb (Nat.eqb i) [8; 13; 18; 23]%nat
         then c = "-"%byte
         else is_hex_char c = true.
Proof.
  intros Hu. sixteen u Hu. rewrite UUID_String_sixteen.
  eexists. split; [reflexivity|]. split.
  - rewrite string_of_list_byte_length. reflexivity.
  - rewrite list_byte_of_string_of_list_byte.
    unfold hex_pair. cbn [app].
    intros i c.
    do 36 (destruct i as [|i];
           [cbn [nth_error existsb Nat.eqb orb]; intros [= <-];
            first [reflexivity | apply hex_high_char | apply hex_low_char]|]).
    cbn [nth_error]. destruct i; discriminate.
Qed.

Lemma UUID_String_format_witness :
  exists s,
    UUID_String [x53; xb4; xe9; x83; xb2; x87; x48; x1a;
                 x94; xad; x6e; x3c; x90; x48; x99; x13] = Ok s
    /\ String.length s = 36%nat
    /\ forall i c,
         nth_error (list_byte_of_string s) i = Some c ->
         if existsb (Nat.eqb i) [8; 13; 18; 23]%nat
         then c = "-"%byte
         else is_hex_char c = true.
Proof.
  exact (UUID_String_format
           [x53; xb4; xe9; x83; xb2; x87; x48; x1a;
            x94; xad; x6e; x3c; x90; x48; x99; x13] eq_refl).
Defined.

(** X6. [UUID.String] is injective: two different UUIDs never have the
    same text. *)
Theorem UUID_String_injective (u1 u2 : UUID) :
  UUID_wf u1 ->
  UUID_wf u2 ->
  UUID_String u1 = UUID_String u2 ->
  u1 = u2.
Proof.
  intros H1 H2 H. sixteen u1 H1. sixteen u2 H2.
  rewrite !UUID_String_sixteen in H.
  apply (f_equal (fun r => match r with
                           | Ok s => list_byte_of_string s
                           | Err _ => []
                           end)) in H.
  cbv beta iota in H.
  rewrite !list_byte_of_string_of_list_byte in H.
  cbn [app hex_pair] in H.
  injection H; intros.
  repeat (f_equal; [apply hex_pair_inj; unfold hex_pair; congruence|]).
  f_equal. apply hex_pair_inj; unfold hex_pair; congruence.
Qed.

Lemma UUID_String_injective_witness :
  UUID_String (repeat x00 16) = UUID_String (repeat x00 16)
  /\ repeat x00 16 = repeat x00 16.
Proof.
  split; [reflexivity|].
  exact (UUID_String_injective (repeat x00 16) (repeat x00 16)
           eq_refl eq_refl eq_refl).
Defined.

(** *** The digits of a big integer *)


Import DecimalText.

(** The characters of an unsigned decimal numeral. *)
Lemma uint_chars_revapp (d d' : Decimal.uint) :
  list_ascii_of_string (NilEmpty.string_of_uint (Decimal.revapp d d'))
  = rev (list_ascii_of_string (NilEmpty.string_of_uint d))
    ++ list_ascii_of_string (NilEmpty.string_of_uint d').
Proof.
  revert d'. induction d; intros d'; cbn [Decimal.revapp];
    [reflexivity | rewrite IHd; cbn; rewrite <- app_assoc; reflexivity ..].
Qed.

Lemma uint_chars_digits (d : Decimal.uint) :
  forallb is_digit (list_ascii_of_string (NilEmpty.string_of_uint d)) = true.
Proof.
  induction d; cbn [NilEmpty.string_of_uint list_ascii_of_string forallb];
    [reflexivity | rewrite IHd; reflexivity ..].
Qed.

Lemma digits_value_snoc l c :
  digits_value (l ++ [c]) = 10 * digits_value l + digit_value c.
Proof. unfold digits_value. rewrite fold_left_app. reflexivity. Qed.

Lemma of_lu_digits_value (d : Decimal.uint) :
  Z.of_N (DecimalPos.Unsigned.of_lu d)
  = digits_value (rev (list_ascii_of_string (NilEmpty.string_of_uint d))).
Proof.
  induction d;
    cbn [DecimalPos.Unsigned.of_lu NilEmpty.string_of_uint
         list_ascii_of_string rev];
    [reflexivity
    | rewrite digits_value_snoc, <- IHd; unfold digit_value;
      set (n := DecimalPos.Unsigned.of_lu d);
      match goal with
      | |- context [nat_of_ascii ?c] =>
          let v := eval vm_compute in (nat_of_ascii c) in
          change (nat_of_ascii c) with v
      end; lia ..].
Qed.

Lemma pos_digits_little (p : positive) :
  pos_digits p
  = rev (list_ascii_of_string
           (NilEmpty.string_of_uint (Pos.to_little_uint p))).
Proof.
  unfold pos_digits, BigInt.String. cbn [Z.to_int NilZero.string_of_int].
  unfold NilZero.string_of_uint.
  pose proof (DecimalPos.Unsigned.to_uint_nonnil p) as Hnn.
  destruct (Pos.to_uint p) eqn:Hp; [congruence | rewrite <- Hp ..];
    unfold Pos.to_uint, Decimal.rev; rewrite uint_chars_revapp;
    cbn [NilEmpty.string_of_uint list_ascii_of_string];
    apply app_nil_r.
Qed.

Lemma pos_digits_value (p : positive) : digits_value (pos_digits p) = Z.pos p.
Proof.
  rewrite pos_digits_little, <- of_lu_digits_value.
  rewrite <- DecimalPos.Unsigned.of_lu_rev.
  change (Decimal.rev (Pos.to_little_uint p)) with (Pos.to_uint p).
  rewrite DecimalPos.Unsigned.of_to. reflexivity.
Qed.

Lemma pos_digits_digits (p : positive) : forallb is_digit (pos_digits p) = true.
Proof.
  rewrite pos_digits_little. apply forallb_forall. intros c Hc.
  apply in_rev in Hc. revert c Hc.
  apply forallb_forall, uint_chars_digits.
Qed.

Lemma pos_digits_tenfold (p : positive) :
  pos_digits (10 * p) = pos_digits p ++ ["0"%char].
Proof.
  rewrite !pos_digits_little.
  change (Pos.to_little_uint (10 * p))
    with (DecimalPos.Unsigned.to_lu (10 * N.pos p)).
  rewrite DecimalPos.Unsigned.to_ldec_tenfold. reflexivity.
Qed.

(** *** Trailing zeros *)

Lemma is_zero_digit_eq c : is_zero_digit c = true -> c = "0"%char.
Proof. unfold is_zero_digit. apply Ascii.eqb_eq. Qed.

Lemma take_while_zeros l :
  take_while is_zero_digit l
  = repeat "0"%char (List.length (take_while is_zero_digit l)).
Proof.
  induction l as [|c l IH]; cbn; [reflexivity|].
  destruct (is_zero_digit c) eqn:Hc; cbn; [|reflexivity].
  rewrite <- IH, (is_zero_digit_eq c Hc). reflexivity.
Qed.

Lemma rev_repeat (c : ascii) n : rev (repeat c n) = repeat c n.
Proof.
  induction n as [|n IH]; cbn; [reflexivity|].
  rewrite IH. clear IH. induction n as [|n IH]; cbn; [reflexivity|].
  rewrite IH. reflexivity.
Qed.

Lemma trim_app_zeros digits :
  trim_trailing_zeros digits ++ repeat "0"%char (trailing_zeros digits)
  = digits.
Proof.
  unfold trim_trailing_zeros, trailing_zeros.
  rewrite <- rev_repeat, <- take_while_zeros, <- rev_app_distr.
  rewrite take_drop_while. apply rev_involutive.
Qed.

Lemma drop_while_head f l c l' : drop_while f l = c :: l' -> f c = false.
Proof.
  induction l as [|a l IH]; cbn; [discriminate|].
  destruct (f a) eqn:Ha; [exact IH|]. intros [= <- _]. exact Ha.
Qed.

Lemma trim_last_nonzero digits :
  trim_trailing_zeros digits = []
  \/ exists l c, trim_trailing_zeros digits = l ++ [c]
                 /\ is_zero_digit c = false.
Proof.
  unfold trim_trailing_zeros.
  destruct (drop_while is_zero_digit (rev digits)) as [|c l] eqn:Hd.
  - left. reflexivity.
  - right. exists (rev l), c. split; [reflexivity|].
    eapply drop_while_head. exact Hd.
Qed.

Lemma trailing_zeros_snoc digits :
  trailing_zeros (digits ++ ["0"%char]) = S (trailing_zeros digits).
Proof.
  unfold trailing_zeros. rewrite rev_app_distr. reflexivity.
Qed.

Lemma trim_snoc_zero digits :
  trim_trailing_zeros (digits ++ ["0"%char]) = trim_trailing_zeros digits.
Proof.
  unfold trim_trailing_zeros. rewrite rev_app_distr. reflexivity.
Qed.

(** *** The value of a digit sequence *)

Lemma fold_digits_acc l :
  forall acc,
    fold_left (fun a c => 10 * a + digit_value c) l acc
    = acc * 10 ^ Z.of_nat (List.length l) + digits_value l.
Proof.
  unfold digits_value.
  induction l as [|c l IH]; intros acc; cbn [fold_left List.length].
  - cbn. lia.
  - rewrite IH, (IH (10 * 0 + digit_value c)).
    rewrite Nat2Z.inj_succ, Z.pow_succ_r by lia. lia.
Qed.

Lemma digits_value_app a b :
  digits_value (a ++ b)
  = digits_value a * 10 ^ Z.of_nat (List.length b) + digits_value b.
Proof.
  unfold digits_value at 1. rewrite fold_left_app.
  fold (digits_value a). apply fold_digits_acc.
Qed.

Lemma digits_value_zeros n : digits_value (repeat "0"%char n) = 0.
Proof.
  induction n as [|n IH]; [reflexivity|].
  change (repeat "0"%char (S n)) with (["0"%char] ++ repeat "0"%char n).
  rewrite digits_value_app, IH. reflexivity.
Qed.

Lemma forallb_digits_zeros n : forallb is_digit (repeat "0"%char n) = true.
Proof. induction n as [|n IH]; [reflexivity|]. cbn. exact IH. Qed.

(** *** What Decimal.String prints *)

Lemma Decimal_String_as_rules (d : Decimal) :
  Decimal_String d = toString (Scale d) (Value d).
Proof.
  destruct d as [wd sc v]. unfold Decimal_String, toString.
  cbn [Value Scale]. unfold BigInt.Sign, sign_of, digits_of.
  destruct v as [|p|p].
  - reflexivity.
  - change (Z.sgn (Z.pos p) =? 0) with false.
    change (Z.sgn (Z.pos p) <? 0) with false.
    change (Z.pos p =? 0) with false.
    change (Z.pos p <? 0) with false.
    change (Z.abs (Z.pos p)) with (Z.pos p).
    cbv iota.
    rewrite <- (string_of_list_ascii_of_string _) at 1.
    f_equal.
    exact (Decimal_String_body ""%string (BigInt.String (Z.pos p)) sc).
  - change (Z.sgn (Z.neg p) =? 0) with false.
    change (Z.sgn (Z.neg p) <? 0) with true.
    change (Z.neg p =? 0) with false.
    change (Z.neg p <? 0) with true.
    change (Z.abs (Z.neg p)) with (Z.pos p).
    cbv iota.
    rewrite BigInt_String_neg, slice_after_first.
    rewrite <- (string_of_list_ascii_of_string _) at 1.
    f_equal.
    exact (Decimal_String_body "-"%string (BigInt.String (Z.pos p)) sc).
Qed.

Lemma toString_pos sc p :
  toString sc (Z.pos p) = string_of_list_ascii (arranged sc (pos_digits p)).
Proof.
  unfold toString, arranged, sign_of, digits_of.
  change (Z.pos p =? 0) with false. change (Z.pos p <? 0) with false.
  change (Z.abs (Z.pos p)) with (Z.pos p). fold (pos_digits p).
  cbv iota zeta. reflexivity.
Qed.

Lemma toString_neg sc p :
  toString sc (Z.neg p)
  = string_of_list_ascii ("-"%char :: arranged sc (pos_digits p)).
Proof.
  unfold toString, arranged, sign_of, digits_of.
  change (Z.neg p =? 0) with false. change (Z.neg p <? 0) with true.
  change (Z.abs (Z.neg p)) with (Z.pos p). fold (pos_digits p).
  cbv iota zeta. f_equal.
  repeat match goal with
         | |- context [if ?b then _ else _] => destruct b
         end; reflexivity.
Qed.

Lemma arranged_tenfold sc digits :
  arranged (sc + 1) (digits ++ ["0"%char]) = arranged sc digits.
Proof.
  unfold arranged. rewrite trailing_zeros_snoc, trim_snoc_zero.
  replace (sc + 1 - Z.of_nat (S (trailing_zeros digits)))
    with (sc - Z.of_nat (trailing_zeros digits)) by lia.
  reflexivity.
Qed.

Lemma Decimal_String_tenfold w w' sc v :
  Decimal_String (mk_Decimal w (sc + 1) (10 * v))
  = Decimal_String (mk_Decimal w' sc v).
Proof.
  rewrite !Decimal_String_as_rules. cbn [Scale Value].
  destruct v as [|p|p].
  - reflexivity.
  - change (10 * Z.pos p) with (Z.pos (10 * p)).
    rewrite !toString_pos, pos_digits_tenfold, arranged_tenfold.
    reflexivity.
  - change (10 * Z.neg p) with (Z.neg (10 * p)).
    rewrite !toString_neg, pos_digits_tenfold, arranged_tenfold.
    reflexivity.
Qed.

Lemma Decimal_String_scaled w w' sc v (k : nat) :
  Decimal_String (mk_Decimal w (sc + Z.of_nat k) (v * 10 ^ Z.of_nat k))
  = Decimal_String (mk_Decimal w' sc v).
Proof.
  induction k as [|k IH].
  - cbn [Z.of_nat]. rewrite Z.add_0_r, Z.pow_0_r, Z.mul_1_r.
    rewrite !Decimal_String_as_rules. reflexivity.
  - rewrite Nat2Z.inj_succ, Z.pow_succ_r by lia.
    replace (sc + Z.succ (Z.of_nat k)) with (sc + Z.of_nat k + 1) by lia.
    replace (v * (10 * 10 ^ Z.of_nat k))
      with (10 * (v * 10 ^ Z.of_nat k)) by lia.
    rewrite (Decimal_String_tenfold w w). exact IH.
Qed.

(** *** Reading back what Decimal.String prints *)

Lemma is_digit_not_point c : is_digit c = true -> Ascii.eqb c "."%char = false.
Proof.
  intros H. destruct (Ascii.eqb_spec c "."%char) as [->|]; [|reflexivity].
  discriminate H.
Qed.

Lemma is_digit_not_minus c : is_digit c = true -> Ascii.eqb c "-"%char = false.
Proof.
  intros H. destruct (Ascii.eqb_spec c "-"%char) as [->|]; [|reflexivity].
  discriminate H.
Qed.

Lemma split_point_digits l :
  forallb is_digit l = true -> split_point l = (l, None).
Proof.
  induction l as [|c l IH]; cbn [split_point forallb]; [reflexivity|].
  intros H. apply andb_true_iff in H. destruct H as [Hc Hl].
  rewrite (is_digit_not_point c Hc), (IH Hl). reflexivity.
Qed.

Lemma split_point_at l r :
  forallb is_digit l = true ->
  split_point (l ++ "."%char :: r) = (l, Some r).
Proof.
  induction l as [|c l IH]; cbn [split_point forallb app]; [reflexivity|].
  intros H. apply andb_true_iff in H. destruct H as [Hc Hl].
  rewrite (is_digit_not_point c Hc), (IH Hl). reflexivity.
Qed.

Lemma all_digits_true l :
  l <> [] -> forallb is_digit l = true -> all_digits l = true.
Proof. destruct l; [congruence|]. intros _ H. exact H. Qed.

Lemma unsigned_value_integer l :
  l <> [] -> forallb is_digit l = true ->
  unsigned_value l = Some (digits_value l, 0).
Proof.
  intros Hne Hd. unfold unsigned_value.
  rewrite (split_point_digits l Hd), (all_digits_true l Hne Hd).
  rewrite app_nil_r. reflexivity.
Qed.

Lemma unsigned_value_fraction i f :
  i <> [] -> forallb is_digit i = true ->
  f <> [] -> forallb is_digit f = true ->
  unsigned_value (i ++ "."%char :: f)
  = Some (digits_value (i ++ f), Z.of_nat (List.length f)).
Proof.
  intros Hi Hdi Hf Hdf. unfold unsigned_value.
  rewrite (split_point_at i f Hdi).
  rewrite (all_digits_true i Hi Hdi), (all_digits_true f Hf Hdf).
  reflexivity.
Qed.

Lemma value_unsigned c r :
  is_digit c = true ->
  value (string_of_list_ascii (c :: r))
  = unsigned_value (c :: r).
Proof.
  intros Hc. unfold value. rewrite list_ascii_of_string_of_list_ascii.
  cbn [strip_sign]. rewrite (is_digit_not_minus c Hc).
  destruct (unsigned_value (c :: r)) as [[m e]|]; reflexivity.
Qed.

Lemma value_negative body :
  value (string_of_list_ascii ("-"%char :: body))
  = match unsigned_value body with
    | Some (m, e) => Some (- m, e)
    | None => None
    end.
Proof.
  unfold value. rewrite list_ascii_of_string_of_list_ascii. reflexivity.
Qed.

(** The arranged digits read back as the magnitude over [10^sc]. *)
Lemma arranged_value sc digits :
  0 <= sc ->
  forallb is_digit digits = true ->
  0 < digits_value digits ->
  exists m e c r,
    arranged sc digits = c :: r
    /\ is_digit c = true
    /\ unsigned_value (arranged sc digits) = Some (m, e)
    /\ 0 <= e
    /\ m * 10 ^ sc = digits_value digits * 10 ^ e.
Proof.
  intros Hsc Hdig Hpos.
  pose proof (trim_app_zeros digits) as Happ.
  unfold arranged.
  set (T := trim_trailing_zeros digits) in *.
  set (tz := trailing_zeros digits) in *.
  assert (HdT : forallb is_digit T = true).
  { rewrite <- Happ, forallb_app in Hdig.
    apply andb_true_iff in Hdig. tauto. }
  assert (Hval : digits_value digits = digits_value T * 10 ^ Z.of_nat tz).
  { rewrite <- Happ at 1.
    rewrite digits_value_app, digits_value_zeros, repeat_length. lia. }
  assert (HT : T <> []).
  { intros E. rewrite E in Hval. cbn in Hval. lia. }
  assert (HheadT : exists c r, T = c :: r /\ is_digit c = true).
  { destruct T as [|c r]; [congruence|]. exists c, r.
    split; [reflexivity|]. cbn in HdT.
    apply andb_true_iff in HdT. tauto. }
  destruct HheadT as (c0 & r0 & HT0 & Hc0).
  set (reduced := sc - Z.of_nat tz).
  destruct (Z.leb_spec reduced 0) as [Hle | Hgt].
  - (* an integer: the trimmed digits and the zeros put back *)
    exists (digits_value T * 10 ^ (- reduced)), 0, c0,
      (r0 ++ zeros (- reduced)).
    split; [rewrite HT0; reflexivity|]. split; [exact Hc0|].
    split; [|split; [lia|]].
    + rewrite unsigned_value_integer.
      * unfold zeros.
        rewrite digits_value_app, digits_value_zeros, repeat_length.
        rewrite Z2Nat.id by lia. f_equal. f_equal. lia.
      * rewrite HT0. discriminate.
      * rewrite forallb_app, HdT. apply forallb_digits_zeros.
    + rewrite Hval, Z.pow_0_r, Z.mul_1_r, <- Z.mul_assoc.
      rewrite <- Z.pow_add_r by lia. f_equal. f_equal. unfold reduced. lia.
  - destruct (Z.leb_spec (Z.of_nat (List.length T)) reduced) as [Hpad | Hpt].
    + (* below one: "0." and padding zeros *)
      set (pad := zeros (reduced - Z.of_nat (List.length T))).
      exists (digits_value T), reduced, "0"%char,
        ("."%char :: pad ++ T).
      split; [reflexivity|]. split; [reflexivity|].
      split; [|split; [lia|]].
      * change (["0"%char; "."%char] ++ pad ++ T)
          with (["0"%char] ++ "."%char :: pad ++ T).
        rewrite unsigned_value_fraction.
        -- f_equal. f_equal.
           ++ change (["0"%char] ++ pad ++ T)
                with (repeat "0"%char 1 ++ pad ++ T).
              unfold pad, zeros.
              rewrite !digits_value_app, !digits_value_zeros. lia.
           ++ unfold pad, zeros. rewrite length_app, repeat_length. lia.
        -- discriminate.
        -- reflexivity.
        -- intros E. apply app_eq_nil in E. tauto.
        -- unfold pad. rewrite forallb_app, HdT.
           unfold zeros. rewrite forallb_digits_zeros. reflexivity.
      * rewrite Hval, <- Z.mul_assoc, <- Z.pow_add_r by lia.
        f_equal. f_equal. unfold reduced. lia.
    + (* a point inside the digits *)
      unfold point_from_right.
      rewrite skipn_rev, firstn_rev, !rev_involutive.
      set (k := (List.length T - Z.to_nat reduced)%nat).
      assert (Hk : (0 < k < List.length T)%nat) by (unfold k; lia).
      pose proof (firstn_skipn k T) as Hsplit.
      assert (HdA : forallb is_digit (firstn k T) = true).
      { rewrite <- Hsplit, forallb_app in HdT.
        apply andb_true_iff in HdT. tauto. }
      assert (HdB : forallb is_digit (skipn k T) = true).
      { rewrite <- Hsplit, forallb_app in HdT.
        apply andb_true_iff in HdT. tauto. }
      assert (HA : firstn k T <> []).
      { intros E. apply (f_equal (@List.length ascii)) in E.
        rewrite length_firstn in E. cbn in E. lia. }
      assert (HB : skipn k T <> []).
      { intros E. apply (f_equal (@List.length ascii)) in E.
        rewrite length_skipn in E. cbn in E. lia. }
      exists (digits_value T), reduced, c0,
        (tl (firstn k T) ++ "."%char :: skipn k T).
      split.
      { rewrite HT0. destruct k as [|k']; [lia|]. reflexivity. }
      split; [exact Hc0|]. split; [|split; [lia|]].
      * change (firstn k T ++ ["."%char] ++ skipn k T)
          with (firstn k T ++ "."%char :: skipn k T).
        rewrite unsigned_value_fraction by assumption.
        rewrite Hsplit, length_skipn. f_equal. f_equal. unfold k. lia.
      * rewrite Hval, <- Z.mul_assoc, <- Z.pow_add_r by lia.
        f_equal. f_equal. unfold reduced. lia.
Qed.

Lemma Decimal_String_reads_back (d : Decimal) :
  0 <= Scale d ->
  exists m e,
    DecimalText.value (Decimal_String d) = Some (m, e)
    /\ 0 <= e
    /\ m * 10 ^ Scale d = Value d * 10 ^ e.
Proof.
  intros Hsc. rewrite Decimal_String_as_rules.
  destruct d as [w sc v]. cbn [Scale Value] in *.
  destruct v as [|p|p].
  - exists 0, 0. split; [reflexivity|]. lia.
  - destruct (arranged_value sc (pos_digits p) Hsc (pos_digits_digits p))
      as (m & e & c & r & Hcr & Hc & Hu & He & Heq).
    { rewrite pos_digits_value. lia. }
    exists m, e. rewrite toString_pos, Hcr, (value_unsigned c r Hc), <- Hcr.
    rewrite pos_digits_value in Heq. auto.
  - destruct (arranged_value sc (pos_digits p) Hsc (pos_digits_digits p))
      as (m & e & c & r & Hcr & Hc & Hu & He & Heq).
    { rewrite pos_digits_value. lia. }
    exists (- m), e. rewrite toString_neg, value_negative, Hu.
    rewrite pos_digits_value in Heq.
    split; [reflexivity|]. split; [exact He|].
    change (Z.neg p) with (- Z.pos p). lia.
Qed.

(** The three shapes of the arranged digits. *)
Lemma arranged_shape sc digits :
  forallb is_digit digits = true ->
  0 < digits_value digits ->
  exists T,
    T = trim_trailing_zeros digits
    /\ T <> [] /\ forallb is_digit T = true
    /\ let reduced := sc - Z.of_nat (trailing_zeros digits) in
       (reduced <= 0
        /\ arranged sc digits = T ++ repeat "0"%char (Z.to_nat (- reduced)))
       \/ (0 < reduced /\ Z.of_nat (List.length T) <= reduced
           /\ arranged sc digits
              = "0"%char :: "."%char
                :: repeat "0"%char
                     (Z.to_nat (reduced - Z.of_nat (List.length T)))
                ++ T)
       \/ (0 < reduced < Z.of_nat (List.length T)
           /\ exists A B,
                T = A ++ B /\ A <> [] /\ B <> []
                /\ List.length B = Z.to_nat reduced
                /\ arranged sc digits = A ++ "."%char :: B).
Proof.
  intros Hdig Hpos.
  pose proof (trim_app_zeros digits) as Happ.
  exists (trim_trailing_zeros digits). split; [reflexivity|].
  unfold arranged.
  set (T := trim_trailing_zeros digits) in *.
  set (tz := trailing_zeros digits) in *.
  assert (HdT : forallb is_digit T = true).
  { rewrite <- Happ, forallb_app in Hdig.
    apply andb_true_iff in Hdig. tauto. }
  assert (HT : T <> []).
  { intros E. rewrite E in Happ. cbn [app] in Happ.
    rewrite <- Happ, digits_value_zeros in Hpos. lia. }
  split; [exact HT|]. split; [exact HdT|]. cbv zeta.
  set (reduced := sc - Z.of_nat tz).
  destruct (Z.leb_spec reduced 0) as [Hle | Hgt].
  - left. split; [exact Hle | reflexivity].
  - right.
    destruct (Z.leb_spec (Z.of_nat (List.length T)) reduced) as [Hpad | Hpt].
    + left. split; [exact Hgt|]. split; [exact Hpad | reflexivity].
    + right. split; [lia|].
      unfold point_from_right.
      rewrite skipn_rev, firstn_rev, !rev_involutive.
      set (k := (List.length T - Z.to_nat reduced)%nat).
      exists (firstn k T), (skipn k T).
      split; [symmetry; apply firstn_skipn|].
      split.
      { intros E. apply (f_equal (@List.length ascii)) in E.
        rewrite length_firstn in E. cbn in E. unfold k in E. lia. }
      split.
      { intros E. apply (f_equal (@List.length ascii)) in E.
        rewrite length_skipn in E. cbn in E. unfold k in E. lia. }
      split; [rewrite length_skipn; unfold k; lia | reflexivity].
Qed.

Lemma pos_digits_positive p : 0 < digits_value (pos_digits p).
Proof. rewrite pos_digits_value. lia. Qed.

Lemma arranged_head sc digits :
  forallb is_digit digits = true ->
  0 < digits_value digits ->
  exists c r, arranged sc digits = c :: r /\ is_digit c = true.
Proof.
  intros Hdig Hpos.
  destruct (arranged_shape sc digits Hdig Hpos)
    as (T & _ & HT & HdT & [[_ E] | [(_ & _ & E) | (_ & A & B & HAB & HA & _ & _ & E)]]);
    rewrite E.
  - destruct T as [|c r]; [congruence|]. exists c. eexists.
    split; [reflexivity|]. cbn in HdT. apply andb_true_iff in HdT. tauto.
  - exists "0"%char. eexists. split; reflexivity.
  - destruct A as [|c r]; [congruence|]. exists c. eexists.
    split; [reflexivity|]. rewrite HAB in HdT. cbn in HdT.
    apply andb_true_iff in HdT. tauto.
Qed.

Lemma last_char_of (l : list ascii) :
  l <> [] -> exists l' c, l = l' ++ [c].
Proof.
  intros H. destruct (exists_last H) as (l' & c & ->). eauto.
Qed.

Lemma arranged_fraction_end sc digits :
  forallb is_digit digits = true ->
  0 < digits_value digits ->
  In "."%char (arranged sc digits) ->
  exists l c, arranged sc digits = l ++ [c]
              /\ is_digit c = true /\ c <> "0"%char.
Proof.
  intros Hdig Hpos Hin.
  destruct (arranged_shape sc digits Hdig Hpos)
    as (T & HTeq & HT & HdT & Hshape).
  destruct (trim_last_nonzero digits) as [E | (l & c & E & Hc)];
    [congruence|].
  rewrite <- HTeq in E.
  assert (Hcd : is_digit c = true).
  { rewrite E, forallb_app in HdT. cbn in HdT.
    apply andb_true_iff in HdT. destruct HdT as [_ H].
    apply andb_true_iff in H. tauto. }
  assert (Hc0 : c <> "0"%char).
  { intros ->. discriminate Hc. }
  destruct Hshape as [[_ Ea] | [(_ & _ & Ea) | (_ & A & B & HAB & _ & HB & _ & Ea)]];
    rewrite Ea in *.
  - exfalso.
    assert (Hall : forallb is_digit (T ++ repeat "0"%char
                      (Z.to_nat (- (sc - Z.of_nat (trailing_zeros digits)))))
                   = true).
    { rewrite forallb_app, HdT. apply forallb_digits_zeros. }
    rewrite forallb_forall in Hall. specialize (Hall _ Hin).
    discriminate Hall.
  - rewrite E. eexists (_ :: _ :: _ ++ l), c.
    split; [|split; assumption].
    cbn [app]. rewrite app_assoc. reflexivity.
  - destruct (last_char_of B HB) as (B' & c' & ->).
    rewrite E, app_assoc in HAB. apply app_inj_tail in HAB.
    destruct HAB as [_ <-].
    exists (A ++ "."%char :: B'), c.
    split; [|split; assumption].
    rewrite <- app_assoc. reflexivity.
Qed.

(** X7. [Decimal.String] prints a well-formed decimal text (an optional
    minus sign, digits and optionally a point followed by digits) that
    stands for exactly [Value / 10^Scale]. *)
Theorem Decimal_String_value (d : Decimal) :
  0 <= Scale d ->
  exists m e,
    DecimalText.value (Decimal_String d) = Some (m, e)
    /\ 0 <= e
    /\ m * 10 ^ Scale d = Value d * 10 ^ e.
Proof. apply Decimal_String_reads_back. Qed.

Lemma Decimal_String_value_witness :
  exists m e,
    DecimalText.value (Decimal_String (mk_Decimal 5 3 (-1200))) = Some (m, e)
    /\ 0 <= e
    /\ m * 10 ^ 3 = -1200 * 10 ^ e.
Proof.
  exact (Decimal_String_value (mk_Decimal 5 3 (-1200))
           ltac:(cbn; lia)).
Defined.

(** X8. The text is canonical: two decimals print the same text exactly
    when they stand for the same number, whatever their scales and
    widths. *)
Theorem Decimal_String_canonical (d1 d2 : Decimal) :
  0 <= Scale d1 ->
  0 <= Scale d2 ->
  (Decimal_String d1 = Decimal_String d2
   <-> Value d1 * 10 ^ Scale d2 = Value d2 * 10 ^ Scale d1).
Proof.
  intros H1 H2. split.
  - intros Heq.
    destruct (Decimal_String_reads_back d1 H1) as (m1 & e1 & Hv1 & He1 & E1).
    destruct (Decimal_String_reads_back d2 H2) as (m2 & e2 & Hv2 & He2 & E2).
    rewrite Heq, Hv2 in Hv1. injection Hv1 as Hm He. subst m1 e1.
    apply (Z.mul_reg_r _ _ (10 ^ e2)).
    + pose proof (Z.pow_pos_nonneg 10 e2 ltac:(lia) He2). lia.
    + replace (Value d1 * 10 ^ Scale d2 * 10 ^ e2)
        with (Value d1 * 10 ^ e2 * 10 ^ Scale d2) by ring.
      replace (Value d2 * 10 ^ Scale d1 * 10 ^ e2)
        with (Value d2 * 10 ^ e2 * 10 ^ Scale d1) by ring.
      rewrite <- E1, <- E2. ring.
  - destruct d1 as [w1 s1 v1], d2 as [w2 s2 v2]. cbn [Scale Value] in *.
    intros Heq.
    destruct (Z.le_ge_cases s1 s2) as [Hle | Hge].
    + assert (Hv : v2 = v1 * 10 ^ Z.of_nat (Z.to_nat (s2 - s1))).
      { rewrite Z2Nat.id by lia.
        apply (Z.mul_reg_r _ _ (10 ^ s1)).
        - pose proof (Z.pow_pos_nonneg 10 s1 ltac:(lia) H1). lia.
        - rewrite <- Z.mul_assoc, <- Z.pow_add_r by lia.
          replace (s2 - s1 + s1) with s2 by lia. symmetry. exact Heq. }
      replace s2 with (s1 + Z.of_nat (Z.to_nat (s2 - s1))) by lia.
      rewrite Hv. symmetry. apply Decimal_String_scaled.
    + assert (Hv : v1 = v2 * 10 ^ Z.of_nat (Z.to_nat (s1 - s2))).
      { rewrite Z2Nat.id by lia.
        apply (Z.mul_reg_r _ _ (10 ^ s2)).
        - pose proof (Z.pow_pos_nonneg 10 s2 ltac:(lia) H2). lia.
        - rewrite <- Z.mul_assoc, <- Z.pow_add_r by lia.
          replace (s1 - s2 + s2) with s1 by lia. exact Heq. }
      replace s1 with (s2 + Z.of_nat (Z.to_nat (s1 - s2))) by lia.
      rewrite Hv. apply Decimal_String_scaled.
Qed.

Lemma Decimal_String_canonical_witness :
  Decimal_String (mk_Decimal 5 2 150) = Decimal_String (mk_Decimal 9 1 15)
  <-> 150 * 10 ^ 1 = 15 * 10 ^ 2.
Proof.
  exact (Decimal_String_canonical (mk_Decimal 5 2 150) (mk_Decimal 9 1 15)
           ltac:(cbn; lia) ltac:(cbn; lia)).
Defined.

(** X9. With scale 0 the text is the integer as [big.Int.String] prints
    it: the trailing zeros that were trimmed are put back. *)
Theorem Decimal_String_integer (d : Decimal) :
  Scale d = 0 ->
  Decimal_String d = BigInt.String (Value d).
Proof.
  intros Hs. rewrite Decimal_String_as_rules, Hs.
  destruct (Value d) as [|p|p].
  - reflexivity.
  - rewrite toString_pos. unfold arranged.
    destruct (Z.leb_spec (0 - Z.of_nat (trailing_zeros (pos_digits p))) 0);
      [|lia].
    unfold zeros.
    replace (Z.to_nat (- (0 - Z.of_nat (trailing_zeros (pos_digits p)))))
      with (trailing_zeros (pos_digits p)) by lia.
    rewrite trim_app_zeros. apply string_of_list_ascii_of_string.
  - rewrite toString_neg. unfold arranged.
    destruct (Z.leb_spec (0 - Z.of_nat (trailing_zeros (pos_digits p))) 0);
      [|lia].
    unfold zeros.
    replace (Z.to_nat (- (0 - Z.of_nat (trailing_zeros (pos_digits p)))))
      with (trailing_zeros (pos_digits p)) by lia.
    rewrite trim_app_zeros, BigInt_String_neg.
    cbn [string_of_list_ascii]. f_equal.
    apply string_of_list_ascii_of_string.
Qed.

Lemma Decimal_String_integer_witness :
  Decimal_String (mk_Decimal 5 0 (-1200)) = BigInt.String (-1200).
Proof.
  exact (Decimal_String_integer (mk_Decimal 5 0 (-1200)) eq_refl).
Defined.

(** X10. The text starts with a minus sign exactly when the value is
    negative. *)
Theorem Decimal_String_minus (d : Decimal) :
  (exists r, Decimal_String d = String "-"%char r) <-> Value d < 0.
Proof.
  rewrite Decimal_String_as_rules.
  destruct (Value d) as [|p|p].
  - split; [intros [r H]; discriminate H | lia].
  - rewrite toString_pos.
    destruct (arranged_head (Scale d) (pos_digits p)
                (pos_digits_digits p) (pos_digits_positive p))
      as (c & r & -> & Hc).
    split; [|lia]. intros [r' H]. cbn [string_of_list_ascii] in H.
    injection H as -> _. discriminate Hc.
  - rewrite toString_neg. split; [lia|]. intros _.
    eexists. reflexivity.
Qed.

(** X11. A printed fraction is in shortest form: a text that contains a
    point ends in a digit other than 0. *)
Theorem Decimal_String_fraction_end (d : Decimal) :
  In "."%char (list_ascii_of_string (Decimal_String d)) ->
  exists l c,
    list_ascii_of_string (Decimal_String d) = l ++ [c]
    /\ is_digit c = true /\ c <> "0"%char.
Proof.
  rewrite Decimal_String_as_rules.
  destruct (Value d) as [|p|p].
  - cbn. intros [H | []]. discriminate H.
  - rewrite toString_pos, list_ascii_of_string_of_list_ascii.
    apply arranged_fraction_end;
      [apply pos_digits_digits | apply pos_digits_positive].
  - rewrite toString_neg, list_ascii_of_string_of_list_ascii.
    intros [H | H]; [discriminate H|].
    destruct (arranged_fraction_end (Scale d) (pos_digits p)
                (pos_digits_digits p) (pos_digits_positive p) H)
      as (l & c & E & Hc).
    exists ("-"%char :: l), c. rewrite E. split; [reflexivity | exact Hc].
Qed.

Lemma Decimal_String_fraction_end_witness :
  exists l c,
    list_ascii_of_string (Decimal_String (mk_Decimal 5 4 (-12300)))
    = l ++ [c]
    /\ is_digit c = true /\ c <> "0"%char.
Proof.
  apply (Decimal_String_fraction_end (mk_Decimal 5 4 (-12300))).
  vm_compute. tauto.
Defined.

(** *** UUIDs read back from the engine *)

Lemma hugeIntToUUID_uuidToHugeInt (u : UUID) :
  UUID_wf u -> hugeIntToUUID (uuidToHugeInt u) = u.
Proof.
  intros Hu. sixteen u Hu.
  unfold hugeIntToUUID, uuidToHugeInt, uuid_length.
  cbn [firstn skipn upper lower repeat].
  rewrite (sign_bit_flip_twice _ (Uint64_bytes_range _ _ _ _ _ _ _ _)).
  rewrite (to_uint64_small _ (to_uint64_range _)).
  rewrite (to_uint64_small _ (Uint64_bytes_range _ _ _ _ _ _ _ _)).
  rewrite !PutUint64_Uint64. reflexivity.
Qed.

(** X12. The bytes [hugeIntToUUID] makes are always taken by [UUID.Scan]
    as raw bytes, never parsed as text, and scanning a UUID that went
    through [uuidToHugeInt] and [hugeIntToUUID] gives that UUID back,
    whatever the receiver held. *)
Theorem UUID_Scan_of_hugeint (E : Type)
    (Parse : string -> result (list byte) E)
    (u0 u : UUID) (hi : duckdb_hugeint) :
  UUID_wf u0 ->
  UUID_wf u ->
  Scan E Parse u0 (AnyBytes (hugeIntToUUID hi)) = (hugeIntToUUID hi, None)
  /\ Scan E Parse u0 (AnyBytes (hugeIntToUUID (uuidToHugeInt u)))
     = (u, None).
Proof.
  intros H0 Hu.
  assert (Hraw : forall h,
             Scan E Parse u0 (AnyBytes (hugeIntToUUID h))
             = (hugeIntToUUID h, None)).
  { intros h. cbn [Scan].
    change (List.length (hugeIntToUUID h)) with 16%nat.
    cbn [Nat.eqb uuid_length negb].
    rewrite copy_same_length by (rewrite H0; reflexivity). reflexivity. }
  split; [apply Hraw|].
  rewrite Hraw, (hugeIntToUUID_uuidToHugeInt u Hu). reflexivity.
Qed.

Lemma UUID_Scan_of_hugeint_witness :
  Scan unit (fun _ => Err tt) (repeat x00 16)
    (AnyBytes
       (hugeIntToUUID
          (uuidToHugeInt [x80; x00; x00; x00; x00; x00; x00; x00;
                          x00; x00; x20; x00; x00; x00; x00; x00])))
  = ([x80; x00; x00; x00; x00; x00; x00; x00;
      x00; x00; x20; x00; x00; x00; x00; x00], None).
Proof.
  exact (proj2 (UUID_Scan_of_hugeint unit (fun _ => Err tt)
                  (repeat x00 16)
                  [x80; x00; x00; x00; x00; x00; x00; x00;
                   x00; x00; x20; x00; x00; x00; x00; x00]
                  (mk_hugeint 0 0) eq_refl eq_refl)).
Defined.

(** *** Helpers of the tests *)

(** X13. For [lo <= hi], [randInt lo hi] returns a number of [lo, hi]
    when [hi - lo + 1] fits [int64], and panics when the bounds are so
    far apart that [hi - lo + 1] overflows. *)
Theorem randInt_bounds (draws : nat -> Z -> Z) (k : nat) (lo hi : Z) :
  (forall j n, 0 < n -> 0 <= draws j n < n) ->
  Word.in_int64 lo ->
  Word.in_int64 hi ->
  lo <= hi ->
  if hi - lo + 1 <? 2 ^ 63
  then exists r, randInt draws k lo hi = Ok r /\ lo <= r <= hi
  else randInt draws k lo hi = Err InvalidArgument.
Proof.
  intros Hgen Hlo Hhi Hle. unfold randInt, Int63n, bind.
  destruct (Z.ltb_spec (hi - lo + 1) (2 ^ 63)) as [Hsmall | Hbig].
  - rewrite (to_int64_small (hi - lo + 1)) by (words; lia).
    destruct (Z.leb_spec (hi - lo + 1) 0); [lia|].
    pose proof (Hgen k (hi - lo + 1) ltac:(lia)) as Hr.
    eexists. split; [reflexivity|].
    rewrite to_int64_small by (words; lia). lia.
  - assert (Hn : Word.to_int64 (hi - lo + 1) <= 0).
    { words.
      destruct (Z.ltb_spec ((hi - lo + 1) mod 18446744073709551616)
                  9223372036854775808);
        Z.div_mod_to_equations; lia. }
    destruct (Z.leb_spec (Word.to_int64 (hi - lo + 1)) 0); [reflexivity|lia].
Qed.

Lemma randInt_bounds_witness :
  exists r, randInt (fun _ _ => 0) 0 (-128) 127 = Ok r /\ -128 <= r <= 127.
Proof.
  refine (randInt_bounds (fun _ _ => 0) 0 (-128) 127 _ _ _ _).
  - intros j n Hn. lia.
  - cbv; intuition discriminate.
  - cbv; intuition discriminate.
  - lia.
Defined.

Lemma letter_at_letters j :
  0 <= j < Z.of_nat (List.length letters) ->
  exists c, letter_at j = Ok c /\ In c letters.
Proof.
  intros Hj. unfold letter_at.
  destruct (Z.leb_spec 0 j); [|lia].
  destruct (Z.ltb_spec j (Z.of_nat (List.length letters))); [|lia].
  cbn [andb]. eexists. split; [reflexivity|].
  apply nth_In. lia.
Qed.

Lemma randString_loop_letters (draws : nat -> Z -> Z) :
  (forall j n, 0 < n -> 0 <= draws j n < n) ->
  forall todo k b i,
    (i + todo)%nat = List.length b ->
    Forall (fun c => In c letters) (firstn i b) ->
    exists b',
      randString_loop draws k b i todo = Ok b'
      /\ List.length b' = List.length b
      /\ Forall (fun c => In c letters) b'.
Proof.
  intros Hgen. induction todo as [|todo IH]; intros k b i Hlen Hpre.
  - exists b. split; [reflexivity|]. split; [reflexivity|].
    rewrite firstn_all2 in Hpre by lia. exact Hpre.
  - cbn [randString_loop]. unfold Intn.
    change (Z.of_nat (List.length letters) <=? 0) with false.
    cbv iota. cbn [bind].
    destruct (letter_at_letters (draws k (Z.of_nat (List.length letters))))
      as (c & Hc & Hin).
    { apply Hgen. reflexivity. }
    rewrite Hc. cbn [bind].
    destruct (IH (S k) (firstn i b ++ c :: skipn (S i) b) (S i))
      as (b' & Hb' & Hlen' & Hall).
    + rewrite length_app, length_firstn. cbn [List.length].
      rewrite length_skipn. lia.
    + assert (Hi : List.length (firstn i b) = i)
        by (rewrite length_firstn; lia).
      rewrite firstn_app, Hi, (firstn_all2 (n := S i)) by lia.
      replace (S i - i)%nat with 1%nat by lia. cbn [firstn].
      apply Forall_app. split; [exact Hpre|]. constructor; [exact Hin|].
      constructor.
    + exists b'. split; [exact Hb'|]. split; [|exact Hall].
      rewrite Hlen', length_app, length_firstn. cbn [List.length].
      rewrite length_skipn. lia.
Qed.

(** X14. [randString n] panics for a negative [n]; otherwise it returns
    a string of exactly [n] characters, each of them one of the 62
    letters and digits of [letters]. *)
Theorem randString_letters (draws : nat -> Z -> Z) (k : nat) (n : Z) :
  (forall j m, 0 < m -> 0 <= draws j m < m) ->
  if n <? 0 then randString draws k n = Err LenOutOfRange
  else exists s,
      randString draws k n = Ok s
      /\ Z.of_nat (String.length s) = n
      /\ Forall (fun c => In c letters) (list_ascii_of_string s).
Proof.
  intros Hgen. unfold randString.
  destruct (Z.ltb_spec n 0) as [Hneg | Hnn]; [reflexivity|].
  destruct (randString_loop_letters draws Hgen
              (List.length (repeat "000"%char (Z.to_nat n))) k
              (repeat "000"%char (Z.to_nat n)) 0)
    as (b & Hb & Hlen & Hall).
  - reflexivity.
  - constructor.
  - rewrite Hb. cbn [bind]. eexists. split; [reflexivity|].
    rewrite list_ascii_of_string_of_list_ascii. split; [|exact Hall].
    rewrite chars_length, list_ascii_of_string_of_list_ascii, Hlen.
    rewrite repeat_length. lia.
Qed.

Lemma randString_letters_witness :
  exists s,
    randString (fun _ _ => 0) 0 3 = Ok s
    /\ Z.of_nat (String.length s) = 3
    /\ Forall (fun c => In c letters) (list_ascii_of_string s).
Proof.
  refine (randString_letters (fun _ _ => 0) 0 3 _).
  intros j m Hm. lia.
Defined.
